(** * explainer.py: the predictor adapters and the command-line driver

    A shallow embedding of [src/explainer.py].  The first half models the
    two functions that turn a classifier's native output into rows of class
    scores ([fasttext_predictor], [flair_predictor]); the second half models
    [main] and the [__main__] block as a program over external calls
    (model loading, LIME, file output, printing). *)

From Stdlib Require Import String Ascii ZArith Floats DecimalString DecimalNat.
From stdpp Require Import base list strings sorting.

Open Scope string_scope.
#[local] Set Warnings "-inexact-float".

(** ** Python exceptions and fallible results *)

(** Only subclasses of [Exception] are modelled: these are what
    [except Exception] at line 132 catches. *)
Inductive exn_class : Type :=
  | Exception
  | IndexError
  | ValueError
  | KeyError
  | OtherError (name : string).

Record exn : Type := Exn { exn_cls : exn_class; exn_msg : string }.

Inductive result (A : Type) : Type :=
  | Ok (a : A)
  | Err (e : exn).
Arguments Ok {A} a.
Arguments Err {A} e.

#[global] Instance result_ret : MRet result := fun _ a => Ok a.
#[global] Instance result_bind : MBind result := fun _ _ f m =>
  match m with
  | Ok a => f a
  | Err e => Err e
  end.

(** ** The part of NumPy the adapters use *)

Module np.

Definition index_error : exn :=
  Exn IndexError "index out of bounds".
Definition inhomogeneous : exn :=
  Exn ValueError "setting an array element with a sequence: inhomogeneous shape".

Section argsort.
Context {K : Type} (ltb : K → K → bool).

(** One step of the indirect insertion sort: the entry [x] (an index
    with the key stored at it) moves left past every entry whose key is
    strictly greater, so entries with equal keys keep their order. *)
Fixpoint insert (x : nat * K) (l : list (nat * K)) : list (nat * K) :=
  match l with
  | [] => [x]
  | y :: l' => if ltb x.2 y.2 then x :: y :: l' else y :: insert x l'
  end.

Definition isort (l : list (nat * K)) : list (nat * K) :=
  foldl (λ acc x, insert x acc) [] l.

(** [np.argsort(v)]: the indices of [v] in the order that sorts [v].
    NumPy's default kind sorts runs of at most 16 entries by insertion;
    with pairwise distinct keys the answer does not depend on the
    algorithm (see [argsort_unique]). *)
Definition argsort (v : list K) : list nat :=
  (isort (imap pair v)).*1.

(** The order the keys end up in: [kle] is "not greater than",
    [klt] is "smaller than"; [ele] compares decorated entries. *)
Definition kle (x y : K) : Prop := ltb y x = false.
Definition klt (x y : K) : Prop := ltb x y = true.
Definition ele (a b : nat * K) : Prop := kle a.2 b.2.
End argsort.

(** [a[idx]] for a one-dimensional [a] and an integer index array. *)
Definition take {A} (a : list A) (idx : list nat) : result (list A) :=
  mapM (λ i, match a !! i with
             | Some x => Ok x
             | None => Err index_error
             end) idx.

(** [np.array(rows)] for a sequence of rows: a two-dimensional array
    when all rows have one length.  Ragged input is refused with a
    [ValueError] (NumPy 1.24 and later). *)
Definition array {A} (rows : list (list A)) : result (list (list A)) :=
  match rows with
  | [] => Ok []
  | r :: rs =>
      if forallb (λ r', Nat.eqb (length r') (length r)) rs then Ok rows
      else Err inhomogeneous
  end.

End np.

(** ** Classifiers *)

Abbreviation score := float.

(** A loaded FastText model: [predict(texts, k)] gives, per text, a
    sequence of labels and a sequence of scores. *)
Record fasttext_model : Type := FastText
  { ft_predict : list string → nat → result (list (list string) * list (list score)) }.

(** A Flair label as found in [doc.labels]. *)
Record Label : Type := mkLabel { value : string; lscore : score }.

(** A loaded Flair model: [predict(doc, multi_class_prob)] stores labels
    in the document; the model returns what [doc.labels] holds afterwards. *)
Record flair_model : Type := Flair
  { fl_predict : string → bool → result (list Label) }.

(** ** The predictors *)

Fixpoint zip3 {A B C} (l1 : list A) (l2 : list B) (l3 : list C) : list (A * B * C) :=
  match l1, l2, l3 with
  | a :: l1', b :: l2', c :: l3' => (a, b, c) :: zip3 l1' l2' l3'
  | _, _, _ => []
  end.

(** Lines 29-40. *)
Definition fasttext_predictor (classifier : fasttext_model) (texts : list string)
  : result (list (list score)) :=
  '(labels, probs) ← ft_predict classifier texts 5;
  result ← mapM (λ '(label, prob, text),
                   let order := np.argsort String.ltb label in
                   np.take prob order)
                (zip3 labels probs texts);
  np.array result.

(** Lines 47-54: the per-text loop, appending to [labels] and [probs]. *)
Fixpoint flair_collect (classifier : flair_model) (texts : list string)
    (labels : list (list string)) (probs : list (list score))
  : result (list (list string) * list (list score)) :=
  match texts with
  | [] => Ok (labels, probs)
  | text :: texts' =>
      doc_labels ← fl_predict classifier text true;
      flair_collect classifier texts'
        (labels ++ [value <$> doc_labels])
        (probs ++ [lscore <$> doc_labels])
  end.

(** Lines 43-63. *)
Definition flair_predictor (classifier : flair_model) (texts : list string)
  : result (list (list score)) :=
  '(labels, probs) ← flair_collect classifier texts [] [];
  probs ← np.array probs;
  result ← mapM (λ '(label, prob, text),
                   let order := np.argsort String.ltb label in
                   np.take prob order)
                (zip3 labels probs texts);
  np.array result.

(** The body of the loops at lines 36-38 and 59-61, which read the same
    in both predictors. *)
Definition adapt (label : list string) (prob : list score) : result (list score) :=
  let order := np.argsort String.ltb label in
  np.take prob order.

(** Labels in canonical order: strictly ascending. *)
Definition ascending (label : list string) : Prop :=
  StronglySorted (np.klt String.ltb) label.

(** The number of classes: [class_names] at line 88 has five entries, and
    line 32 asks FastText for five labels. *)
Definition class_count : nat := 5.

(** A text's raw prediction: its native labels and the paired scores. *)
Abbreviation raw_prediction := (list string * list score)%type.

(** The FastText model answers [texts] with the raw predictions [raws]. *)
Definition ft_returns (classifier : fasttext_model) (texts : list string)
    (raws : list raw_prediction) : Prop :=
  ft_predict classifier texts 5 = Ok (raws.*1, raws.*2).

(** The Flair model answers each of [texts] with the raw prediction at the
    same position of [raws]. *)
Definition fl_returns (classifier : flair_model) (texts : list string)
    (raws : list raw_prediction) : Prop :=
  Forall2 (λ text raw, ∃ doc_labels,
             fl_predict classifier text true = Ok doc_labels ∧
             raw = (value <$> doc_labels, lscore <$> doc_labels))
          texts raws.

(** [row] is [prob] rearranged by a permutation of the positions that
    puts [label] in ascending order. *)
Definition sorts_by_label (label : list string) (prob row : list score) : Prop :=
  ∃ (order : list nat) (sorted : list string),
    order ≡ₚ seq 0 (length label) ∧
    np.take label order = Ok sorted ∧ ascending sorted ∧
    np.take prob order = Ok row.

(** [raw'] holds the (label, score) pairs of [raw] in another order. *)
Definition shuffled (raw raw' : raw_prediction) : Prop :=
  ∃ pairs pairs' : list (string * score),
    pairs ≡ₚ pairs' ∧
    raw = (pairs.*1, pairs.*2) ∧ raw' = (pairs'.*1, pairs'.*2).

(** ** Stub models and sample predictions *)

Definition sample_text : string := "Light , cute and forgettable .".

(** Stub models that answer every text with one fixed raw prediction. *)
Definition constant_fasttext (raw : raw_prediction) : fasttext_model :=
  FastText (λ texts k, Ok ((λ _, raw.1) <$> texts, (λ _, raw.2) <$> texts)).
Definition constant_flair (raw : raw_prediction) : flair_model :=
  Flair (λ text multi_class_prob, Ok (zip_with mkLabel raw.1 raw.2)).

(** A raw prediction naming one label twice, and the same pairs swapped. *)
Definition dup_raw : raw_prediction := (["1"; "1"], [0.3; 0.7]%float).
Definition dup_raw' : raw_prediction := (["1"; "1"], [0.7; 0.3]%float).

(** A raw prediction of a model that knows three classes only. *)
Definition three_raw : raw_prediction := (["2"; "3"; "1"], [0.5; 0.3; 0.2]%float).

(** Labels 3,1,5,2,4 with their scores. *)
Definition scenario_labels : list string := ["3"; "1"; "5"; "2"; "4"].
Definition scenario_scores : list score := [0.1; 0.5; 0.05; 0.2; 0.15]%float.

(** * The command-line driver *)

(** ** The registry and the sample texts (lines 9-12 and 104-110) *)

Definition METHODS : list (string * string) :=
  [("fasttext", "models/fasttext/sst.bin");
   ("flair", "models/flair/best-model-elmo.pt")].

Definition dict_keys (d : list (string * string)) : list string := d.*1.

Fixpoint dict_get (d : list (string * string)) (key : string) : option string :=
  match d with
  | [] => None
  | (k, v) :: d' => if String.eqb k key then Some v else dict_get d' key
  end.

Definition samples : list string :=
  ["It 's not horrible , just horribly mediocre .";
   "Light , cute and forgettable ."].

Definition method_list : list string := dict_keys METHODS.

(** The message of [parser.error] at line 121. *)
Definition usage : string :=
  "Please choose from the below existing methods! "
  ++ String (ascii_of_nat 10) (String.concat ", " method_list).

Definition str_of_nat (n : nat) : string :=
  NilEmpty.string_of_uint (Nat.to_uint n).

(** [str(e)] for an exception. *)
Definition str_of_exn (e : exn) : string := exn_msg e.

(** ** Programs over external calls *)

(** The configuration given to [LimeTextExplainer] at lines 81-89; the
    splitting function is Python's [str.split]. *)
Record LimeTextExplainer : Type := mkExplainer
  { bow : bool; class_names : list Z }.

Section driver.
Variable Explanation : Type.
Variable script_dir : string.

(** What the program asks of the world, with the type of the answer.  An
    answer of type [result X] is a return value or a raised exception. *)
Inductive call : Type → Type :=
  | LoadFasttext (path_to_model : string) : call (result fasttext_model)
  | LoadFlair (path_to_model : string) : call (result flair_model)
  | ExplainInstance (explainer : LimeTextExplainer) (text : string)
      (classifier_fn : list string → result (list (list score)))
      (top_labels num_features : nat) : call (result Explanation)
  | SaveToFile (exp : Explanation) (output_filename : string) : call (result unit)
  | Print (msg : string) : call unit
  | ParserError (msg : string) : call unit.

Inductive prog (R : Type) : Type :=
  | Return (r : R)
  | Raise (e : exn)
  | Exit (status : Z)
  | Call {X : Type} (c : call X) (k : X → prog R).
Arguments Return {R} r.
Arguments Raise {R} e.
Arguments Exit {R} status.
Arguments Call {R X} c k.

Fixpoint bind {A B} (p : prog A) (f : A → prog B) : prog B :=
  match p with
  | Return a => f a
  | Raise e => Raise e
  | Exit status => Exit status
  | Call c k => Call c (λ x, bind (k x) f)
  end.

(** [try: p except Exception as e: handler e]. *)
Fixpoint try_except {A} (p : prog A) (handler : exn → prog A) : prog A :=
  match p with
  | Return a => Return a
  | Raise e => handler e
  | Exit status => Exit status
  | Call c k => Call c (λ x, try_except (k x) handler)
  end.

(** A call that returns or raises. *)
Definition invoke {X} (c : call (result X)) : prog X :=
  Call c (λ r, match r with
               | Ok x => Return x
               | Err e => Raise e
               end).

Definition print (msg : string) : prog unit := Call (Print msg) Return.

(** [parser.error(msg)]: usage and message on stderr, then exit status 2. *)
Definition parser_error {R} (msg : string) : prog R :=
  Call (ParserError msg) (λ _, Exit 2).

(** ** [main] (lines 66-98) *)

Definition main (method path_to_model text : string) : prog Explanation :=
  bind
    (if String.eqb method "fasttext" then
       bind (invoke (LoadFasttext path_to_model)) (λ classifier,
         Return (fasttext_predictor classifier))
     else if String.eqb method "flair" then
       bind (invoke (LoadFlair path_to_model)) (λ classifier,
         Return (flair_predictor classifier))
     else
       Raise (Exn Exception "Requested method {} explainer function not implemented!"))
    (λ predictor,
       let explainer := {| bow := false; class_names := [1; 2; 3; 4; 5]%Z |} in
       invoke (ExplainInstance explainer text (λ x, predictor x) 1 10)).

(** ** The [__main__] block (lines 119-133) *)

(** One turn of the inner loop, lines 126-131. *)
Definition explain_sample (method path_to_model : string) (i : nat) (text : string)
  : prog unit :=
  bind (main method path_to_model text) (λ exp,
    let output_filename :=
      script_dir ++ "/" ++ str_of_nat i ++ "-explanation-" ++ method ++ ".html" in
    bind (invoke (SaveToFile exp output_filename)) (λ _,
      print ("Output explainer data " ++ str_of_nat (i + 1) ++ " to HTML"))).

(** [for i, text in enumerate(texts)], counting from [i]. *)
Fixpoint explain_samples (method path_to_model : string) (i : nat) (texts : list string)
  : prog unit :=
  match texts with
  | [] => Return tt
  | text :: texts' =>
      bind (explain_sample method path_to_model i text) (λ _,
        explain_samples method path_to_model (S i) texts')
  end.

(** The [try] statement, lines 122-133. *)
Definition method_block (method : string) : prog unit :=
  try_except
    (bind (match dict_get METHODS method with
           | Some path_to_model => Return path_to_model
           | None => Raise (Exn KeyError method)
           end) (λ path_to_model,
       explain_samples method path_to_model 0 samples))
    (λ e, print (str_of_exn e)).

(** The body of the outer loop, lines 120-133. *)
Definition method_turn (method : string) : prog unit :=
  bind
    (if negb (existsb (String.eqb method) (dict_keys METHODS)) then
       parser_error usage
     else Return tt)
    (λ _, method_block method).

(** [for method in args.method]. *)
Fixpoint script (methods : list string) : prog unit :=
  match methods with
  | [] => Return tt
  | method :: methods' => bind (method_turn method) (λ _, script methods')
  end.

(** ** Running a program *)

Inductive outcome (R : Type) : Type :=
  | Returned (r : R)
  | Raised (e : exn)
  | Exited (status : Z).
Arguments Returned {R} r.
Arguments Raised {R} e.
Arguments Exited {R} status.

(** What an observer sees of a call. *)
Inductive action : Type :=
  | ALoadFasttext (path_to_model : string)
  | ALoadFlair (path_to_model : string)
  | AExplain (text : string)
  | ASave (output_filename : string)
  | APrint (msg : string)
  | AParserError (msg : string).

Definition action_of {X} (c : call X) : action :=
  match c with
  | LoadFasttext path_to_model => ALoadFasttext path_to_model
  | LoadFlair path_to_model => ALoadFlair path_to_model
  | ExplainInstance _ text _ _ _ => AExplain text
  | SaveToFile _ output_filename => ASave output_filename
  | Print msg => APrint msg
  | ParserError msg => AParserError msg
  end.

Definition is_load (a : action) : bool :=
  match a with
  | ALoadFasttext _ | ALoadFlair _ => true
  | _ => false
  end.

Definition is_work (a : action) : bool :=
  match a with
  | ALoadFasttext _ | ALoadFlair _ | AExplain _ | ASave _ => true
  | _ => false
  end.

(** A program that never ends the process. *)
Fixpoint exit_free {R} (p : prog R) : Prop :=
  match p with
  | Return _ | Raise _ => True
  | Exit _ => False
  | Call c k => ∀ x, exit_free (k x)
  end.

Variable World : Type.

(** The world answers every call and moves on. *)
Definition oracle : Type := ∀ X, call X → World → X * World.

Definition run (R : Type) : Type := outcome R * list action * World.

(** Put the actions [t] in front of those of [r]. *)
Definition after {R} (t : list action) (r : run R) : run R :=
  (r.1.1, (t ++ r.1.2)%list, r.2).

Fixpoint exec {R} (h : oracle) (p : prog R) (w : World) : run R :=
  match p with
  | Return r => (Returned r, [], w)
  | Raise e => (Raised e, [], w)
  | Exit status => (Exited status, [], w)
  | Call c k =>
      let '(x, w') := h _ c w in
      after [action_of c] (exec h (k x) w')
  end.

End driver.

Arguments Return {Explanation R} r.
Arguments Raise {Explanation R} e.
Arguments Exit {Explanation R} status.
Arguments Call {Explanation R X} c k.
Arguments Returned {R} r.
Arguments Raised {R} e.
Arguments Exited {R} status.
Arguments exec {Explanation World R} h p w.
Arguments after {World R} t r.
Arguments action_of {Explanation X} c.
Arguments LoadFasttext {Explanation} path_to_model.
Arguments LoadFlair {Explanation} path_to_model.
Arguments ExplainInstance {Explanation} explainer text classifier_fn top_labels num_features.
Arguments SaveToFile {Explanation} exp output_filename.
Arguments Print {Explanation} msg.
Arguments ParserError {Explanation} msg.
Arguments bind {Explanation A B} p f.
Arguments try_except {Explanation A} p handler.
Arguments invoke {Explanation X} c.
Arguments print {Explanation} msg.
Arguments parser_error {Explanation R} msg.
Arguments exit_free {Explanation R} p.

(** A world without model files: every load raises, everything else
    succeeds. *)
Definition missing_model : exn := Exn ValueError "model file cannot be opened".

Definition no_models : oracle unit unit :=
  λ X c w,
    match c in call _ X return X * unit with
    | LoadFasttext _ => (Err missing_model, tt)
    | LoadFlair _ => (Err missing_model, tt)
    | ExplainInstance _ _ _ _ _ => (Ok tt, tt)
    | SaveToFile _ _ => (Ok tt, tt)
    | Print _ => (tt, tt)
    | ParserError _ => (tt, tt)
    end.

(** ** Further notions used to describe the code *)

(** The scores of [row] are those of [raw], each still with its own label,
    the labels in non-descending order. *)
Definition keeps_pairs (raw : raw_prediction) (row : list score) : Prop :=
  ∃ Q : list (string * score),
    Q ≡ₚ zip raw.1 raw.2 ∧
    StronglySorted (np.kle String.ltb) Q.*1 ∧
    row = Q.*2.

(** The file name built at line 129. *)
Definition output_filename (script_dir : string) (i : nat) (method : string) : string :=
  script_dir ++ "/" ++ str_of_nat i ++ "-explanation-" ++ method ++ ".html".

(** The message printed at line 131. *)
Definition output_message (i : nat) : string :=
  "Output explainer data " ++ str_of_nat (i + 1) ++ " to HTML".

(** The load that [main] performs for a method it implements. *)
Definition load_action (method path_to_model : string) : action :=
  if String.eqb method "fasttext" then ALoadFasttext path_to_model
  else ALoadFlair path_to_model.

(** What is seen of one turn of the inner loop when nothing raises. *)
Definition sample_actions (script_dir method path_to_model : string)
    (i : nat) (text : string) : list action :=
  [load_action method path_to_model; AExplain text;
   ASave (output_filename script_dir i method); APrint (output_message i)].

(** The same for the texts of a whole loop, counted from [i]. *)
Fixpoint samples_actions (script_dir method path_to_model : string)
    (i : nat) (texts : list string) : list action :=
  match texts with
  | [] => []
  | text :: texts' =>
      (sample_actions script_dir method path_to_model i text
       ++ samples_actions script_dir method path_to_model (S i) texts')%list
  end.

(** A method of the registry. *)
Definition known (method : string) : Prop := is_Some (dict_get METHODS method).

(** A world in which every call succeeds. *)
Definition all_ok : oracle unit unit :=
  λ X c w,
    match c in call _ X return X * unit with
    | LoadFasttext _ => (Ok (constant_fasttext (scenario_labels, scenario_scores)), tt)
    | LoadFlair _ => (Ok (constant_flair (scenario_labels, scenario_scores)), tt)
    | ExplainInstance _ _ _ _ _ => (Ok tt, tt)
    | SaveToFile _ _ => (Ok tt, tt)
    | Print _ => (tt, tt)
    | ParserError _ => (tt, tt)
    end.

(** A Flair model that fails on the empty text and gives one label
    otherwise. *)
Definition picky_flair : flair_model :=
  Flair (λ text multi_class_prob,
           if String.eqb text "" then Err (Exn ValueError "empty text")
           else Ok [mkLabel "1" 1%float]).

(** No character of [s] is a hyphen. *)
Fixpoint no_dash (s : string) : Prop :=
  match s with
  | EmptyString => True
  | String c s' => c ≠ "-"%char ∧ no_dash s'
  end.

(** A world in which the model file can be read once and is gone
    afterwards; the state counts the loads asked for so far. *)
Definition read_once : oracle unit nat :=
  λ X c w,
    match c in call _ X return X * nat with
    | LoadFasttext _ =>
        (match w with
         | 0 => Ok (constant_fasttext (scenario_labels, scenario_scores))
         | S _ => Err missing_model
         end, S w)
    | LoadFlair _ =>
        (match w with
         | 0 => Ok (constant_flair (scenario_labels, scenario_scores))
         | S _ => Err missing_model
         end, S w)
    | ExplainInstance _ _ _ _ _ => (Ok tt, w)
    | SaveToFile _ _ => (Ok tt, w)
    | Print _ => (tt, w)
    | ParserError _ => (tt, w)
    end.

(** * Facts *)

Close Scope string_scope.

(** ** The result monad *)

Lemma bind_Ok {A B} (f : A → result B) (m : result A) (b : B) :
  m ≫= f = Ok b ↔ ∃ a, m = Ok a ∧ f a = Ok b.
Proof.
  destruct m as [a|e]; simpl; split.
  - eauto.
  - by intros (a' & [= <-] & ?).
  - done.
  - by intros (? & ? & ?).
Qed.

Lemma mapM_Ok {A B} (f : A → result B) (l : list A) (k : list B) :
  mapM f l = Ok k ↔ Forall2 (λ x y, f x = Ok y) l k.
Proof.
  revert k. induction l as [|x l IH]; intros k; simpl.
  - split; [intros [= <-]; constructor | by inversion 1].
  - rewrite bind_Ok. split.
    + intros (y & Hy & Hk). apply bind_Ok in Hk as (k' & Hk' & [= <-]).
      constructor; [done | by apply IH].
    + inversion 1 as [|? y ? k' Hy Hk']; subst.
      exists y. split; [done|]. apply bind_Ok. exists k'.
      split; [by apply IH | done].
Qed.

Lemma mapM_fmap_Ok {A B} (f : A → result B) (g : A → B) (l : list A) :
  Forall (λ x, f x = Ok (g x)) l → mapM f l = Ok (g <$> l).
Proof.
  intros H. apply mapM_Ok. induction H; constructor; auto.
Qed.

(** ** Indexing with an index array *)

Section take_facts.
Context {A : Type}.
Implicit Types (a out : list A) (idx : list nat).

Lemma take_Ok a idx out :
  np.take a idx = Ok out ↔ Forall2 (λ i x, a !! i = Some x) idx out.
Proof.
  unfold np.take. rewrite mapM_Ok.
  split; intros H; (eapply Forall2_impl; [exact H|]);
    intros i x; simpl; destruct (a !! i); naive_solver.
Qed.

Lemma take_length a idx out : np.take a idx = Ok out → length out = length idx.
Proof. rewrite take_Ok. intros H. symmetry. by eapply Forall2_length. Qed.

Lemma take_total a idx :
  Forall (λ i, i < length a) idx → ∃ out, np.take a idx = Ok out.
Proof.
  induction 1 as [|i idx Hi _ [out Hout]].
  - by exists [].
  - destruct (lookup_lt_is_Some_2 a i Hi) as [x Hx].
    exists (x :: out). apply take_Ok. constructor; [done | by apply take_Ok].
Qed.

Lemma take_seq a : np.take a (seq 0 (length a)) = Ok a.
Proof.
  apply take_Ok, Forall2_same_length_lookup_2; [by rewrite length_seq|].
  intros i j x [-> _]%lookup_seq Hx. done.
Qed.

Lemma take_perm a idx out :
  idx ≡ₚ seq 0 (length a) → np.take a idx = Ok out → out ≡ₚ a.
Proof.
  intros Hp Hout%take_Ok.
  destruct (Permutation_Forall2 Hp Hout) as (a' & Ha' & Hseq).
  rewrite Ha'. apply take_Ok in Hseq. rewrite take_seq in Hseq. by injection Hseq as ->.
Qed.

End take_facts.

Lemma take_fmap {A B} (f : A → B) (a out : list A) (idx : list nat) :
  np.take a idx = Ok out → np.take (f <$> a) idx = Ok (f <$> out).
Proof.
  rewrite !take_Ok. intros H. apply Forall2_fmap_r.
  eapply Forall2_impl; [exact H|]. intros i x Hx. simpl.
  by rewrite list_lookup_fmap, Hx.
Qed.

(** ** Sorting by insertion *)

Section argsort_facts.
Context {K : Type} (ltb : K → K → bool).
Hypothesis ltb_irrefl : ∀ x, ltb x x = false.
Hypothesis ltb_trans : ∀ x y z, ltb x y = true → ltb y z = true → ltb x z = true.
Hypothesis ltb_total : ∀ x y, ltb x y = false → ltb y x = false → x = y.

Local Abbreviation kle := (np.kle ltb).
Local Abbreviation klt := (np.klt ltb).
Local Abbreviation ele := (np.ele ltb).

Lemma ltb_asym x y : ltb x y = true → ltb y x = false.
Proof.
  intros Hxy. destruct (ltb y x) eqn:Hyx; [|done].
  by rewrite <-(ltb_irrefl x), (ltb_trans x y x).
Qed.

Lemma insert_perm x l : np.insert ltb x l ≡ₚ x :: l.
Proof.
  induction l as [|y l IH]; simpl; [done|].
  destruct (ltb x.2 y.2); [done|]. by rewrite IH, Permutation_swap.
Qed.

Lemma isort_from_perm acc l :
  foldl (λ acc x, np.insert ltb x acc) acc l ≡ₚ acc ++ l.
Proof.
  revert acc. induction l as [|x l IH]; intros acc; simpl.
  - by rewrite app_nil_r.
  - rewrite IH, insert_perm. apply Permutation_middle.
Qed.

Lemma isort_perm l : np.isort ltb l ≡ₚ l.
Proof. apply isort_from_perm. Qed.

Lemma insert_sorted x l :
  StronglySorted ele l → StronglySorted ele (np.insert ltb x l).
Proof.
  induction 1 as [|y l Hl IH Hy]; simpl.
  - repeat constructor.
  - destruct (ltb x.2 y.2) eqn:E.
    + constructor; [by constructor|].
      constructor; [by apply ltb_asym|].
      eapply Forall_impl; [exact Hy|]. intros z Hz. unfold np.ele, np.kle in *.
      destruct (ltb z.2 x.2) eqn:E'; [|done].
      by rewrite <-Hz, (ltb_trans _ _ _ E' E).
    + constructor; [done|]. rewrite insert_perm. by constructor.
Qed.

Lemma isort_sorted l : StronglySorted ele (np.isort ltb l).
Proof.
  unfold np.isort. generalize (SSorted_nil ele).
  generalize (@nil (nat * K)) as acc.
  induction l as [|x l IH]; intros acc Hacc; simpl; [done|].
  by apply IH, insert_sorted.
Qed.

(** A list without repetition sorted for [kle] is strictly ascending. *)
Lemma sorted_NoDup_strict (l : list K) :
  StronglySorted kle l → NoDup l → StronglySorted klt l.
Proof.
  induction 1 as [|x l Hl IH Hx]; intros Hnd; [constructor|].
  apply NoDup_cons in Hnd as [Hx' Hnd].
  constructor; [auto|].
  rewrite Forall_forall in Hx |- *. intros y Hy.
  unfold np.klt. destruct (ltb x y) eqn:E; [done|].
  destruct Hx'. by rewrite (ltb_total x y E (Hx y Hy)).
Qed.

Lemma strict_sorted_NoDup (l : list K) : StronglySorted klt l → NoDup l.
Proof.
  induction 1 as [|x l Hl IH Hx]; constructor; [|done].
  intros Hin. rewrite Forall_forall in Hx. specialize (Hx x Hin).
  unfold np.klt in Hx. by rewrite ltb_irrefl in Hx.
Qed.

(** Two lists with the same entries, both strictly ascending by key,
    are the same list. *)
Lemma strict_sorted_unique {T} (key : T → K) (l1 l2 : list T) :
  StronglySorted klt (key <$> l1) → StronglySorted klt (key <$> l2) →
  l1 ≡ₚ l2 → l1 = l2.
Proof.
  intros H1 H2.
  assert (∀ l : list T, StronglySorted klt (key <$> l) →
            StronglySorted (λ a b, klt (key a) (key b)) l) as Hkeys.
  { induction l as [|a l IH]; simpl; [constructor|].
    intros Hs. inversion Hs as [|? ? Hl Ha]; subst.
    constructor; [auto|]. by rewrite Forall_fmap in Ha. }
  apply (StronglySorted_unique_strong (λ a b, klt (key a) (key b))); auto.
  intros a b _ _ Hab Hba. unfold np.klt in *.
  by rewrite (ltb_asym _ _ Hab) in Hba.
Qed.

(** *** What [np.argsort] returns *)

Lemma argsort_perm (v : list K) : np.argsort ltb v ≡ₚ seq 0 (length v).
Proof.
  unfold np.argsort. rewrite isort_perm, fmap_imap.
  rewrite <-(list_fmap_id (seq 0 (length v))), <-(imap_seq_0 v id).
  reflexivity.
Qed.

Lemma argsort_length (v : list K) : length (np.argsort ltb v) = length v.
Proof. by rewrite argsort_perm, length_seq. Qed.

Lemma argsort_bound (v : list K) : Forall (λ i, i < length v) (np.argsort ltb v).
Proof.
  rewrite argsort_perm. apply Forall_seq. lia.
Qed.

Lemma take_argsort_keys (v : list K) :
  np.take v (np.argsort ltb v) = Ok (np.isort ltb (imap pair v)).*2.
Proof.
  apply take_Ok. unfold np.argsort.
  apply Forall2_fmap, Forall_Forall2_diag.
  rewrite isort_perm. apply Forall_forall. intros [i k] Hik.
  apply list_elem_of_lookup in Hik as [j Hj].
  rewrite list_lookup_imap in Hj. simpl.
  destruct (v !! j) eqn:E; simplify_eq/=. done.
Qed.

Lemma argsort_sorts (v sorted : list K) :
  np.take v (np.argsort ltb v) = Ok sorted → StronglySorted kle sorted.
Proof.
  rewrite take_argsort_keys. intros [= <-].
  eapply StronglySorted_fmap; [|apply isort_sorted]. done.
Qed.

Lemma argsort_strict (v sorted : list K) :
  NoDup v → np.take v (np.argsort ltb v) = Ok sorted → StronglySorted klt sorted.
Proof.
  intros Hnd Hs. apply sorted_NoDup_strict; [by eapply argsort_sorts|].
  by rewrite (take_perm _ _ _ (argsort_perm v) Hs).
Qed.

(** With distinct keys there is one permutation that sorts them. *)
Lemma argsort_unique (v sorted : list K) (order : list nat) :
  order ≡ₚ seq 0 (length v) →
  np.take v order = Ok sorted → StronglySorted klt sorted →
  order = np.argsort ltb v.
Proof.
  intros Hp Hs Hsorted.
  assert (NoDup v) as Hnd.
  { rewrite <-(take_perm _ _ _ Hp Hs). by apply strict_sorted_NoDup. }
  assert (∀ o, o ≡ₚ seq 0 (length v) →
            ∃ q : list (nat * K), np.take (imap pair v) o = Ok q ∧ q.*1 = o)
    as Hdec.
  { intros o Ho. destruct (take_total (imap pair v) o) as [q Hq].
    { rewrite Ho, length_imap. apply Forall_seq. lia. }
    exists q. split; [done|]. apply take_Ok in Hq. clear Ho.
    induction Hq as [|i x o q Hx _ IH]; [done|]. csimpl. f_equal; [|done].
    rewrite list_lookup_imap in Hx. destruct (v !! i); by simplify_eq/=. }
  destruct (Hdec order Hp) as (q & Hq & <-).
  destruct (Hdec _ (argsort_perm v)) as (q' & Hq' & Heq').
  rewrite <-Heq'. f_equal.
  assert ((imap pair v).*2 = v) as Hsnd.
  { rewrite fmap_imap. rewrite <-(list_fmap_id v) at 2.
    rewrite <-imap_const. done. }
  apply (strict_sorted_unique snd).
  - apply (take_fmap snd) in Hq. rewrite Hsnd, Hs in Hq. by injection Hq as <-.
  - apply (take_fmap snd) in Hq'. rewrite Hsnd in Hq'.
    by eapply argsort_strict.
  - assert (q ≡ₚ imap pair v) as ->.
    { eapply take_perm; [|exact Hq]. by rewrite length_imap. }
    symmetry. eapply take_perm; [|exact Hq'].
    rewrite length_imap. apply argsort_perm.
Qed.

(** Keys already strictly ascending are left where they are. *)
Lemma argsort_sorted_id (v : list K) :
  StronglySorted klt v → np.argsort ltb v = seq 0 (length v).
Proof.
  intros Hv. symmetry. by eapply argsort_unique; [|apply take_seq|].
Qed.

(** Sorting pairs by their first component: the reordered second
    components depend on the set of pairs only. *)
Lemma take_argsort_pairs {A} (P : list (K * A)) :
  ∃ Q, Q ≡ₚ P ∧ StronglySorted kle Q.*1 ∧
       np.take P.*2 (np.argsort ltb P.*1) = Ok Q.*2.
Proof.
  destruct (take_total P (np.argsort ltb P.*1)) as [Q HQ].
  { generalize (argsort_bound P.*1). by rewrite length_fmap. }
  exists Q. split_and!.
  - eapply take_perm; [|exact HQ]. by rewrite argsort_perm, length_fmap.
  - eapply argsort_sorts. by apply take_fmap.
  - by apply take_fmap.
Qed.

Lemma take_argsort_shuffle {A} (P P' : list (K * A)) :
  NoDup P.*1 → P ≡ₚ P' →
  np.take P.*2 (np.argsort ltb P.*1) = np.take P'.*2 (np.argsort ltb P'.*1).
Proof.
  intros Hnd Hperm.
  destruct (take_argsort_pairs P) as (Q & HQ & Hs & ->).
  destruct (take_argsort_pairs P') as (Q' & HQ' & Hs' & ->).
  do 2 f_equal. apply (strict_sorted_unique fst).
  - apply sorted_NoDup_strict; [done|]. by rewrite HQ.
  - apply sorted_NoDup_strict; [done|]. by rewrite HQ', <-Hperm.
  - by rewrite HQ, HQ'.
Qed.

End argsort_facts.

(** ** The order on labels

    [np.argsort] on an array of strings compares code points from the
    left, a proper prefix being smaller: this is [String.ltb]. *)

Lemma ascii_compare_refl (a : ascii) : Ascii.compare a a = Eq.
Proof. unfold Ascii.compare. apply N.compare_refl. Qed.

Lemma ascii_compare_lt_trans (a b c : ascii) :
  Ascii.compare a b = Lt → Ascii.compare b c = Lt → Ascii.compare a c = Lt.
Proof. unfold Ascii.compare. rewrite !N.compare_lt_iff. lia. Qed.

Lemma string_compare_refl (s : string) : String.compare s s = Eq.
Proof. induction s as [|a s IH]; simpl; [done|]. by rewrite ascii_compare_refl. Qed.

Lemma string_compare_lt_trans (s1 s2 s3 : string) :
  String.compare s1 s2 = Lt → String.compare s2 s3 = Lt → String.compare s1 s3 = Lt.
Proof.
  revert s2 s3. induction s1 as [|a s1 IH]; intros [|b s2] [|c s3]; simpl; try done.
  destruct (Ascii.compare a b) eqn:Hab; [| |discriminate 1].
  - apply Ascii.compare_eq_iff in Hab as ->.
    destruct (Ascii.compare b c); [by eauto|done..].
  - intros _. destruct (Ascii.compare b c) eqn:Hbc; [| |discriminate 1]; intros _.
    + apply Ascii.compare_eq_iff in Hbc as <-. by rewrite Hab.
    + by rewrite (ascii_compare_lt_trans a b c).
Qed.

Lemma string_ltb_irrefl (s : string) : String.ltb s s = false.
Proof. unfold String.ltb. by rewrite string_compare_refl. Qed.

Lemma string_ltb_trans (s1 s2 s3 : string) :
  String.ltb s1 s2 = true → String.ltb s2 s3 = true → String.ltb s1 s3 = true.
Proof.
  unfold String.ltb. intros H1 H2.
  rewrite (string_compare_lt_trans s1 s2 s3); [done| |].
  - by destruct (String.compare s1 s2).
  - by destruct (String.compare s2 s3).
Qed.

Lemma string_ltb_total (s1 s2 : string) :
  String.ltb s1 s2 = false → String.ltb s2 s1 = false → s1 = s2.
Proof.
  unfold String.ltb. rewrite (String.compare_antisym s2 s1).
  destruct (String.compare s1 s2) eqn:E; simpl; try done.
  intros _ _. by apply String.compare_eq_iff.
Qed.

(** ** One row: [adapt] *)

Example argsort_scenario :
  np.argsort String.ltb scenario_labels = [1; 3; 0; 4; 2].
Proof. reflexivity. Qed.

Example take_scenario :
  np.take scenario_scores (np.argsort String.ltb scenario_labels)
  = Ok [0.5; 0.2; 0.1; 0.15; 0.05]%float.
Proof. reflexivity. Qed.

Lemma adapt_length label prob row :
  adapt label prob = Ok row → length row = length label.
Proof.
  unfold adapt. intros H%take_length. by rewrite H, argsort_length.
Qed.

Lemma adapt_total label prob :
  length label ≤ length prob → ∃ row, adapt label prob = Ok row.
Proof.
  intros Hle. apply take_total.
  eapply Forall_impl; [apply argsort_bound|]. simpl. lia.
Qed.

(** ** Pairing the three sequences *)

Lemma length_zip3 {A B C} (l1 : list A) (l2 : list B) (l3 : list C) :
  length (zip3 l1 l2 l3) = length l1 `min` (length l2 `min` length l3).
Proof.
  revert l2 l3. induction l1 as [|a l1 IH]; intros [|b l2] [|c l3]; simpl; auto.
Qed.

Lemma lookup_zip3 {A B C} (l1 : list A) (l2 : list B) (l3 : list C) i a b c :
  zip3 l1 l2 l3 !! i = Some (a, b, c) ↔
  l1 !! i = Some a ∧ l2 !! i = Some b ∧ l3 !! i = Some c.
Proof.
  revert l2 l3 i.
  induction l1 as [|a' l1 IH]; intros [|b' l2] [|c' l3] [|i]; simpl;
    try (split; [done | by intros (? & ? & ?)]).
  - split; [by intros [= -> -> ->] | by intros ([= ->] & [= ->] & [= ->])].
  - apply IH.
Qed.

Lemma zip3_fst {A B C} (raws : list (A * B)) (l3 : list C) :
  length raws ≤ length l3 → (zip3 raws.*1 raws.*2 l3).*1 = raws.
Proof.
  revert l3. induction raws as [|[a b] raws IH]; intros [|c l3]; simpl; try done.
  - lia.
  - intros ?. f_equal. apply IH. lia.
Qed.

(** ** [np.array] *)

Lemma array_Ok_inv {A} (rows out : list (list A)) :
  np.array rows = Ok out → out = rows.
Proof.
  unfold np.array. destruct rows as [|r rs]; [by intros [= <-]|].
  destruct (forallb _ rs); [by intros [= <-] | done].
Qed.

Lemma array_rect {A} (n : nat) (rows : list (list A)) :
  Forall (λ r, length r = n) rows → np.array rows = Ok rows.
Proof.
  destruct 1 as [|r rs Hr Hrs]; simpl; [done|].
  assert (forallb (λ r', Nat.eqb (length r') (length r)) rs = true) as ->; [|done].
  apply forallb_forall. intros r' Hr'%list_elem_of_In. apply Nat.eqb_eq.
  rewrite Forall_forall in Hrs. by rewrite Hr, (Hrs r' Hr').
Qed.

(** Whether [np.array] accepts a sequence of rows depends on the row
    lengths only. *)
Lemma array_shape {A B} (r1 : list (list A)) (r2 : list (list B)) :
  length <$> r1 = length <$> r2 →
  (np.array r1 = Ok r1 ∧ np.array r2 = Ok r2) ∨
  (np.array r1 = Err np.inhomogeneous ∧ np.array r2 = Err np.inhomogeneous).
Proof.
  destruct r1 as [|a r1], r2 as [|b r2]; simpl; try done; [by left|].
  intros [= Hab Hlen]. rewrite Hab.
  assert (forallb (λ r', Nat.eqb (length r') (length b)) r1
          = forallb (λ r', Nat.eqb (length r') (length b)) r2) as ->.
  { revert r2 Hlen. induction r1 as [|x r1 IH]; intros [|y r2]; simpl; try done.
    intros [= -> ?]. f_equal. by apply IH. }
  destruct (forallb _ r2); auto.
Qed.

(** ** The predictors as a map over raw predictions *)

Lemma mapM_ext {A B} (f g : A → result B) (l : list A) :
  (∀ x, f x = g x) → mapM f l = mapM g l.
Proof. intros Hfg. induction l as [|x l IH]; simpl; [done|]. by rewrite Hfg, IH. Qed.

Lemma mapM_fmap {A B C} (f : B → result C) (g : A → B) (l : list A) :
  mapM (λ x, f (g x)) l = mapM f (g <$> l).
Proof. induction l as [|x l IH]; simpl; [done|]. by rewrite IH. Qed.

Lemma mapM_total {A B} (f : A → result B) (l : list A) :
  Forall (λ x, ∃ y, f x = Ok y) l → ∃ k, mapM f l = Ok k.
Proof.
  induction 1 as [|x l [y Hy] _ [k Hk]]; [by exists []|].
  exists (y :: k). simpl. by rewrite Hy, Hk.
Qed.

Lemma mapM_length {A B} (f : A → result B) (l : list A) (k : list B) :
  mapM f l = Ok k → length k = length l.
Proof. rewrite mapM_Ok. intros H. symmetry. by eapply Forall2_length. Qed.

Lemma fasttext_predictor_eq classifier texts :
  fasttext_predictor classifier texts
  = ft_predict classifier texts 5 ≫= λ lp,
      mapM (λ raw, adapt raw.1 raw.2) (zip3 lp.1 lp.2 texts).*1 ≫= np.array.
Proof.
  unfold fasttext_predictor. destruct (ft_predict _ _ _) as [[labels probs]|e]; simpl; [|done].
  rewrite <-mapM_fmap. f_equal. apply mapM_ext. by intros [[label prob] text].
Qed.

Lemma flair_collect_eq classifier texts labels probs :
  flair_collect classifier texts labels probs
  = mapM (λ text, fl_predict classifier text true) texts ≫= λ docs : list (list Label),
      Ok (labels ++ ((λ d : list Label, value <$> d) <$> docs), probs ++ ((λ d : list Label, lscore <$> d) <$> docs)).
Proof.
  revert labels probs. induction texts as [|text texts IH]; intros labels probs; simpl.
  - by rewrite !app_nil_r.
  - destruct (fl_predict classifier text true) as [d|e]; simpl; [|done].
    rewrite IH. destruct (mapM _ texts) as [docs|e]; simpl; [|done].
    by rewrite <-!app_assoc.
Qed.

Lemma flair_predictor_eq classifier texts :
  flair_predictor classifier texts
  = mapM (λ text, fl_predict classifier text true) texts ≫= λ docs : list (list Label),
      np.array ((λ d : list Label, lscore <$> d) <$> docs) ≫= λ probs,
        mapM (λ raw, adapt raw.1 raw.2) (zip3 ((λ d : list Label, value <$> d) <$> docs) probs texts).*1
        ≫= np.array.
Proof.
  unfold flair_predictor. rewrite flair_collect_eq.
  destruct (mapM _ texts) as [docs|e]; simpl; [|done].
  destruct (np.array _) as [probs|e]; simpl; [|done].
  rewrite <-mapM_fmap. f_equal. apply mapM_ext. by intros [[label prob] text].
Qed.

Lemma fl_returns_docs classifier texts raws :
  fl_returns classifier texts raws ↔
  ∃ docs : list (list Label),
    mapM (λ text, fl_predict classifier text true) texts = Ok docs ∧
    raws = (λ d : list Label, (value <$> d, lscore <$> d)) <$> docs.
Proof.
  unfold fl_returns. split.
  - induction 1 as [|text raw texts raws (d & Hd & ->) _ (docs & Hdocs & ->)].
    + by exists [].
    + exists (d :: docs). simpl. by rewrite Hd, Hdocs.
  - intros (docs & Hdocs & ->). apply mapM_Ok in Hdocs.
    apply Forall2_fmap_r. eapply Forall2_impl; [exact Hdocs|]. naive_solver.
Qed.

Lemma fasttext_run classifier texts raws :
  ft_returns classifier texts raws → length raws ≤ length texts →
  fasttext_predictor classifier texts
  = mapM (λ raw, adapt raw.1 raw.2) raws ≫= np.array.
Proof.
  intros Hret Hlen. rewrite fasttext_predictor_eq, Hret. simpl.
  by rewrite zip3_fst.
Qed.

Lemma fl_returns_length classifier texts raws :
  fl_returns classifier texts raws → length raws = length texts.
Proof. intros H. symmetry. by eapply Forall2_length. Qed.

Lemma fl_returns_parallel classifier texts raws :
  fl_returns classifier texts raws → Forall (λ raw, length raw.1 = length raw.2) raws.
Proof.
  induction 1 as [|text raw texts raws (d & _ & ->) _ IH]; constructor; [|done].
  simpl. by rewrite !length_fmap.
Qed.

(** Rows built from raw predictions are as long as the label sequences. *)
Lemma rows_lengths (raws : list raw_prediction) rows :
  mapM (λ raw, adapt raw.1 raw.2) raws = Ok rows →
  Forall2 (λ raw row, adapt raw.1 raw.2 = Ok row ∧ length row = length raw.1) raws rows.
Proof.
  rewrite mapM_Ok. intros H. eapply Forall2_impl; [exact H|].
  intros raw row Hrow. split; [done|]. exact (adapt_length _ _ _ Hrow).
Qed.

Lemma rows_total (raws : list raw_prediction) :
  Forall (λ raw, length raw.1 ≤ length raw.2) raws →
  ∃ rows, mapM (λ raw, adapt raw.1 raw.2) raws = Ok rows.
Proof.
  intros H. apply mapM_total. eapply Forall_impl; [exact H|].
  intros raw. apply adapt_total.
Qed.

Lemma flair_run classifier texts raws :
  fl_returns classifier texts raws →
  flair_predictor classifier texts
  = mapM (λ raw, adapt raw.1 raw.2) raws ≫= np.array.
Proof.
  intros Hret.
  pose proof (fl_returns_length _ _ _ Hret) as Hlen.
  pose proof (fl_returns_parallel _ _ _ Hret) as Hpar.
  apply fl_returns_docs in Hret as (docs & Hdocs & Hraws).
  rewrite flair_predictor_eq, Hdocs. simpl.
  assert ((λ d : list Label, lscore <$> d) <$> docs = raws.*2) as ->.
  { rewrite Hraws, <-list_fmap_compose. by apply list_fmap_ext. }
  assert ((λ d : list Label, value <$> d) <$> docs = raws.*1) as ->.
  { rewrite Hraws, <-list_fmap_compose. by apply list_fmap_ext. }
  destruct (rows_total raws) as [rows Hrows].
  { eapply Forall_impl; [exact Hpar|]. intros ? ?. simpl in *. lia. }
  destruct (array_shape raws.*2 rows) as [[Ha Hb]|[Ha Hb]].
  - apply rows_lengths in Hrows. rewrite <-!list_fmap_compose.
    clear -Hrows Hpar. induction Hrows as [|raw row raws rows [_ Hr] _ IH]; [done|].
    apply Forall_cons in Hpar as [Hp Hpar]. csimpl. f_equal; [|by apply IH].
    simpl. congruence.
  - rewrite Ha. simpl. rewrite zip3_fst; [done|]. lia.
  - rewrite Ha, Hrows. simpl. by rewrite Hb.
Qed.

(** The rows, once the raw predictions have one common shape. *)
Lemma rows_rect (raws : list raw_prediction) (n : nat) :
  Forall (λ raw, length raw.1 = n ∧ length raw.2 = n) raws →
  ∃ rows, mapM (λ raw, adapt raw.1 raw.2) raws ≫= np.array = Ok rows ∧
          Forall2 (λ raw row, adapt raw.1 raw.2 = Ok row ∧ length row = n) raws rows.
Proof.
  intros Hwf. destruct (rows_total raws) as [rows Hrows].
  { eapply Forall_impl; [exact Hwf|]. intros ? ?. simpl in *. lia. }
  apply rows_lengths in Hrows as Hlen.
  assert (Forall2 (λ raw row, adapt raw.1 raw.2 = Ok row ∧ length row = n) raws rows) as H.
  { clear Hrows. induction Hlen as [|raw row raws rows [? ?] _ IH]; [constructor|].
    apply Forall_cons in Hwf as [[? ?] Hwf]. constructor; [split; [done | congruence] | auto]. }
  exists rows. split; [|done]. rewrite Hrows. simpl. apply (array_rect n).
  clear -H. induction H as [|???? [_ ?] _ IH]; constructor; auto.
Qed.

(** What a returned array says about the raw predictions it came from. *)
Lemma rows_inv (raws : list raw_prediction) rows :
  mapM (λ raw, adapt raw.1 raw.2) raws ≫= np.array = Ok rows →
  Forall2 (λ raw row, adapt raw.1 raw.2 = Ok row ∧ length row = length raw.1) raws rows.
Proof.
  intros (rows' & Hrows & ->%array_Ok_inv)%bind_Ok. by apply rows_lengths.
Qed.

(** ** Sorting rows of labelled scores *)

Lemma adapt_sorts label prob :
  NoDup label → length prob = length label →
  ∃ row, adapt label prob = Ok row ∧ sorts_by_label label prob row.
Proof.
  intros Hnd Hlen. destruct (adapt_total label prob) as [row Hrow]; [lia|].
  exists row. split; [done|].
  exists (np.argsort String.ltb label), (np.isort String.ltb (imap pair label)).*2.
  split_and!; [apply argsort_perm | apply take_argsort_keys | | done].
  eapply argsort_strict;
    eauto using string_ltb_irrefl, string_ltb_trans, string_ltb_total, take_argsort_keys.
Qed.

Lemma sorts_by_label_adapt label prob row :
  sorts_by_label label prob row → adapt label prob = Ok row.
Proof.
  intros (order & sorted & Hperm & Hsorted & Hasc & Hrow). unfold adapt.
  by rewrite <-(argsort_unique String.ltb string_ltb_irrefl string_ltb_trans
                  string_ltb_total label sorted order).
Qed.

Lemma adapt_ascending label prob :
  ascending label → length prob = length label → adapt label prob = Ok prob.
Proof.
  intros Hasc Hlen. unfold adapt.
  rewrite (argsort_sorted_id String.ltb string_ltb_irrefl string_ltb_trans
             string_ltb_total label Hasc).
  rewrite <-Hlen. apply take_seq.
Qed.

Lemma adapt_shuffled raw raw' :
  NoDup raw.1 → shuffled raw raw' → adapt raw.1 raw.2 = adapt raw'.1 raw'.2.
Proof.
  intros Hnd (pairs & pairs' & Hperm & -> & ->). simpl in *.
  by apply (take_argsort_shuffle String.ltb string_ltb_irrefl string_ltb_trans
              string_ltb_total).
Qed.

Lemma mapM_Forall2_eq {A B} (f : A → result B) (l l' : list A) :
  Forall2 (λ x y, f x = f y) l l' → mapM f l = mapM f l'.
Proof. induction 1 as [|x y l l' Hxy _ IH]; simpl; [done|]. by rewrite Hxy, IH. Qed.

(** * The predictor adapters: claims *)

(** Both strategies answer through the same expression once the model's
    raw predictions are fixed. *)
Lemma ft_returns_run classifier texts raws :
  length raws = length texts → ft_returns classifier texts raws →
  fasttext_predictor classifier texts
  = mapM (λ raw, adapt raw.1 raw.2) raws ≫= np.array.
Proof. intros Hlen Hret. apply fasttext_run; [done | lia]. Qed.

Lemma Forall2_rows_impl (P Q : raw_prediction → list score → Prop) raws rows :
  Forall2 P raws rows → (∀ raw row, raw ∈ raws → P raw row → Q raw row) →
  Forall2 Q raws rows.
Proof.
  induction 1 as [|raw row raws rows Hp _ IH]; intros HPQ; constructor.
  - apply HPQ; [by left | done].
  - apply IH. intros raw' row' Hin. apply HPQ. by right.
Qed.

(** C1. Given one raw prediction per text, each with [n] pairwise
    distinct labels and [n] scores, both predictors return one row per
    raw prediction, and the row is the score sequence rearranged by a
    permutation that puts the labels in ascending order; any such
    permutation gives the row the adapter computes.  Labels 3,1,5,2,4
    with scores 0.1, 0.5, 0.05, 0.2, 0.15 give 0.5, 0.2, 0.1, 0.15, 0.05. *)
Theorem C1_adapter_sorts_scores_by_label
    (texts : list string) (raws : list raw_prediction) (n : nat)
    (Hlen : length raws = length texts)
    (Hwf : Forall (λ raw, NoDup raw.1 ∧ length raw.1 = n ∧ length raw.2 = n) raws) :
  (∀ c, ft_returns c texts raws →
     ∃ rows, fasttext_predictor c texts = Ok rows ∧
             Forall2 (λ raw row, sorts_by_label raw.1 raw.2 row) raws rows) ∧
  (∀ c, fl_returns c texts raws →
     ∃ rows, flair_predictor c texts = Ok rows ∧
             Forall2 (λ raw row, sorts_by_label raw.1 raw.2 row) raws rows) ∧
  (∀ raw row, raw ∈ raws →
     sorts_by_label raw.1 raw.2 row → adapt raw.1 raw.2 = Ok row) ∧
  fasttext_predictor (constant_fasttext (scenario_labels, scenario_scores)) [sample_text]
    = Ok [[0.5; 0.2; 0.1; 0.15; 0.05]%float] ∧
  flair_predictor (constant_flair (scenario_labels, scenario_scores)) [sample_text]
    = Ok [[0.5; 0.2; 0.1; 0.15; 0.05]%float].
Proof.
  assert (∃ rows, mapM (λ raw, adapt raw.1 raw.2) raws ≫= np.array = Ok rows ∧
            Forall2 (λ raw row, sorts_by_label raw.1 raw.2 row) raws rows)
    as (rows & Hrows & Hsorted).
  { destruct (rows_rect raws n) as (rows & Hrows & Hall).
    { eapply Forall_impl; [exact Hwf|]. by intros raw (_ & ? & ?). }
    exists rows. split; [done|].
    eapply Forall2_rows_impl; [exact Hall|].
    intros raw row Hin [Hrow _]. rewrite Forall_forall in Hwf.
    destruct (Hwf raw Hin) as (Hnd & Hl & Hp).
    destruct (adapt_sorts raw.1 raw.2 Hnd) as (row' & Hrow' & Hs); [congruence|].
    congruence. }
  split_and!.
  - intros c Hret. exists rows. by rewrite (ft_returns_run c texts raws).
  - intros c Hret. exists rows. by rewrite (flair_run c texts raws).
  - intros raw row _. apply sorts_by_label_adapt.
  - reflexivity.
  - reflexivity.
Qed.

Lemma C1_adapter_sorts_scores_by_label_witness :
  ∃ rows, fasttext_predictor
            (constant_fasttext (scenario_labels, scenario_scores)) [sample_text]
          = Ok rows ∧
          Forall2 (λ raw row, sorts_by_label raw.1 raw.2 row)
                  [(scenario_labels, scenario_scores)] rows.
Proof.
  apply (C1_adapter_sorts_scores_by_label
           [sample_text] [(scenario_labels, scenario_scores)] 5).
  - reflexivity.
  - constructor; [|constructor]. split_and!; [|reflexivity..].
    apply (bool_decide_unpack _). vm_compute. reflexivity.
  - reflexivity.
Defined.

(** C2, as stated, fails when a label occurs twice: the same two pairs in
    the two possible orders give different rows.  The two label sequences
    are equal, so this holds for any way of ordering equal labels (last
    part). *)
Lemma C2_shuffle_changes_duplicate_labels :
  shuffled dup_raw dup_raw' ∧
  ft_returns (constant_fasttext dup_raw) [sample_text] [dup_raw] ∧
  ft_returns (constant_fasttext dup_raw') [sample_text] [dup_raw'] ∧
  fasttext_predictor (constant_fasttext dup_raw) [sample_text] = Ok [[0.3; 0.7]%float] ∧
  fasttext_predictor (constant_fasttext dup_raw') [sample_text] = Ok [[0.7; 0.3]%float] ∧
  fl_returns (constant_flair dup_raw) [sample_text] [dup_raw] ∧
  fl_returns (constant_flair dup_raw') [sample_text] [dup_raw'] ∧
  flair_predictor (constant_flair dup_raw) [sample_text] = Ok [[0.3; 0.7]%float] ∧
  flair_predictor (constant_flair dup_raw') [sample_text] = Ok [[0.7; 0.3]%float] ∧
  fasttext_predictor (constant_fasttext dup_raw) [sample_text]
    ≠ fasttext_predictor (constant_fasttext dup_raw') [sample_text] ∧
  flair_predictor (constant_flair dup_raw) [sample_text]
    ≠ flair_predictor (constant_flair dup_raw') [sample_text] ∧
  (∀ order, [0; 1] ≡ₚ order → np.take dup_raw.2 order ≠ np.take dup_raw'.2 order).
Proof.
  assert (∀ order, [0; 1] ≡ₚ order → np.take dup_raw.2 order ≠ np.take dup_raw'.2 order)
    as Hany.
  { intros order [-> | ->]%Permutation_length_2_inv; intros H.
    - apply (f_equal (λ r, match r with
                           | Ok (x :: _) => PrimFloat.ltb x 0.5
                           | _ => false
                           end)) in H.
      vm_compute in H. discriminate.
    - apply (f_equal (λ r, match r with
                           | Ok (x :: _) => PrimFloat.ltb x 0.5
                           | _ => false
                           end)) in H.
      vm_compute in H. discriminate. }
  assert (Ok [[0.3; 0.7]%float] ≠ Ok [[0.7; 0.3]%float]) as Hne.
  { intros H.
    apply (f_equal (λ r, match r with
                         | Ok ((x :: _) :: _) => PrimFloat.ltb x 0.5
                         | _ => false
                         end)) in H.
    vm_compute in H. discriminate. }
  split_and!; try reflexivity; try done.
  - exists [("1", 0.3); ("1", 0.7)]%float, [("1", 0.7); ("1", 0.3)]%float.
    split_and!; [apply Permutation_swap | reflexivity..].
  - repeat constructor. by eexists.
  - repeat constructor. by eexists.
Qed.

(** C2, amended.  When the labels of every raw prediction are pairwise
    distinct, giving the (label, score) pairs of each text in another order
    does not change what either predictor returns. *)
Theorem C2_shuffle_invariant_distinct_labels
    (texts : list string) (raws raws' : list raw_prediction)
    (Hlen : length raws = length texts)
    (Hshuffled : Forall2 shuffled raws raws')
    (Hdistinct : Forall (λ raw, NoDup raw.1) raws) :
  (∀ c c', ft_returns c texts raws → ft_returns c' texts raws' →
     fasttext_predictor c texts = fasttext_predictor c' texts) ∧
  (∀ c c', fl_returns c texts raws → fl_returns c' texts raws' →
     flair_predictor c texts = flair_predictor c' texts).
Proof.
  assert (mapM (λ raw, adapt raw.1 raw.2) raws
          = mapM (λ raw, adapt raw.1 raw.2) raws') as Heq.
  { apply mapM_Forall2_eq. clear Hlen.
    induction Hshuffled as [|raw raw' raws raws' Hs _ IH]; [constructor|].
    apply Forall_cons in Hdistinct as [Hnd Hdistinct].
    constructor; [by apply adapt_shuffled | auto]. }
  assert (length raws' = length texts) as Hlen'.
  { rewrite <-Hlen. symmetry. by eapply Forall2_length. }
  split.
  - intros c c' Hc Hc'.
    by rewrite (ft_returns_run c texts raws), (ft_returns_run c' texts raws'), Heq.
  - intros c c' Hc Hc'.
    by rewrite (flair_run c texts raws), (flair_run c' texts raws'), Heq.
Qed.

Lemma C2_shuffle_invariant_distinct_labels_witness :
  fasttext_predictor (constant_fasttext (scenario_labels, scenario_scores)) [sample_text]
  = fasttext_predictor
      (constant_fasttext (["1"; "2"; "3"; "4"; "5"]%string,
                          [0.5; 0.2; 0.1; 0.15; 0.05]%float)) [sample_text].
Proof.
  apply (C2_shuffle_invariant_distinct_labels
           [sample_text]
           [(scenario_labels, scenario_scores)]
           [(["1"; "2"; "3"; "4"; "5"]%string, [0.5; 0.2; 0.1; 0.15; 0.05]%float)]).
  - reflexivity.
  - constructor; [|constructor].
    exists (zip scenario_labels scenario_scores),
           (zip ["1"; "2"; "3"; "4"; "5"]%string [0.5; 0.2; 0.1; 0.15; 0.05]%float).
    split_and!; [|reflexivity..].
    apply (Permutation_trans (l' :=
             [("1", 0.5); ("3", 0.1); ("5", 0.05); ("2", 0.2); ("4", 0.15)]%string%float));
      [apply Permutation_swap|].
    apply perm_skip. simpl.
    apply (Permutation_trans (l' :=
             [("3", 0.1); ("2", 0.2); ("5", 0.05); ("4", 0.15)]%string%float));
      [apply perm_skip, Permutation_swap|].
    apply (Permutation_trans (l' :=
             [("2", 0.2); ("3", 0.1); ("5", 0.05); ("4", 0.15)]%string%float));
      [apply Permutation_swap|].
    do 2 apply perm_skip. apply Permutation_swap.
  - constructor; [|constructor]. apply (bool_decide_unpack _). vm_compute. reflexivity.
  - reflexivity.
  - reflexivity.
Defined.

(** C3, as stated, fails for a model that knows fewer than five classes:
    both predictors return the three scores they were given. *)
Lemma C3_three_labels_give_three_scores :
  ft_returns (constant_fasttext three_raw) [sample_text] [three_raw] ∧
  fl_returns (constant_flair three_raw) [sample_text] [three_raw] ∧
  fasttext_predictor (constant_fasttext three_raw) [sample_text]
    = Ok [[0.2; 0.5; 0.3]%float] ∧
  flair_predictor (constant_flair three_raw) [sample_text]
    = Ok [[0.2; 0.5; 0.3]%float] ∧
  length [0.2; 0.5; 0.3]%float ≠ class_count.
Proof.
  split_and!; try reflexivity.
  - repeat constructor. by eexists.
  - unfold class_count. simpl. lia.
Qed.

(** C3, amended.  Given one raw prediction per text, every row a predictor
    returns has as many entries as the model gave labels for that text;
    when all raw predictions have [n] labels and [n] scores the predictor
    does return, and every row has length [n] (five for a five-class
    model). *)
Theorem C3_row_length_is_label_count
    (texts : list string) (raws : list raw_prediction)
    (Hlen : length raws = length texts) :
  (∀ c rows, ft_returns c texts raws → fasttext_predictor c texts = Ok rows →
     Forall2 (λ raw row, length row = length raw.1) raws rows) ∧
  (∀ c rows, fl_returns c texts raws → flair_predictor c texts = Ok rows →
     Forall2 (λ raw row, length row = length raw.1) raws rows) ∧
  (∀ n, Forall (λ raw, length raw.1 = n ∧ length raw.2 = n) raws →
     (∀ c, ft_returns c texts raws →
        ∃ rows, fasttext_predictor c texts = Ok rows ∧
                Forall (λ row, length row = n) rows) ∧
     (∀ c, fl_returns c texts raws →
        ∃ rows, flair_predictor c texts = Ok rows ∧
                Forall (λ row, length row = n) rows)).
Proof.
  assert (∀ rows, mapM (λ raw, adapt raw.1 raw.2) raws ≫= np.array = Ok rows →
            Forall2 (λ raw row, length row = length raw.1) raws rows) as Hinv.
  { intros rows Hrows%rows_inv. eapply Forall2_impl; [exact Hrows|].
    by intros raw row [_ ?]. }
  split_and!.
  - intros c rows Hc. rewrite (ft_returns_run c texts raws); auto.
  - intros c rows Hc. rewrite (flair_run c texts raws); auto.
  - intros n Hwf. destruct (rows_rect raws n Hwf) as (rows & Hrows & Hall).
    assert (Forall (λ row, length row = n) rows) as Hn.
    { clear -Hall. induction Hall as [|???? [_ ?] _ IH]; constructor; auto. }
    split; intros c Hc; exists rows.
    + by rewrite (ft_returns_run c texts raws).
    + by rewrite (flair_run c texts raws).
Qed.

Lemma C3_row_length_is_label_count_witness :
  ∃ rows, fasttext_predictor (constant_fasttext three_raw) [sample_text] = Ok rows ∧
          Forall (λ row, length row = 3) rows.
Proof.
  destruct (C3_row_length_is_label_count [sample_text] [three_raw] eq_refl)
    as (_ & _ & Hrect).
  destruct (Hrect 3) as [Hft _]; [by repeat constructor|].
  apply Hft. reflexivity.
Defined.

(** C4, as stated, fails: a text with three native labels makes neither
    predictor raise; each returns a row of three scores. *)
Lemma C4_short_prediction_is_returned :
  Exists (λ raw : raw_prediction, length raw.1 < class_count) [three_raw] ∧
  ft_returns (constant_fasttext three_raw) [sample_text] [three_raw] ∧
  fl_returns (constant_flair three_raw) [sample_text] [three_raw] ∧
  (∃ row, fasttext_predictor (constant_fasttext three_raw) [sample_text] = Ok [row] ∧
          length row < class_count) ∧
  (∃ row, flair_predictor (constant_flair three_raw) [sample_text] = Ok [row] ∧
          length row < class_count).
Proof.
  split_and!.
  - left. unfold class_count. simpl. lia.
  - reflexivity.
  - repeat constructor. by eexists.
  - eexists. split; [reflexivity|]. unfold class_count. simpl. lia.
  - eexists. split; [reflexivity|]. unfold class_count. simpl. lia.
Qed.

Lemma take_Err {A} (a : list A) (idx : list nat) (e : exn) :
  np.take a idx = Err e → e = np.index_error.
Proof.
  unfold np.take. induction idx as [|i idx IH]; simpl; [done|].
  destruct (a !! i); simpl; [|by intros [= <-]].
  destruct (mapM _ idx); simpl; [done|]. intros [= <-]. by apply IH.
Qed.

Lemma rows_Err (raws : list raw_prediction) (e : exn) :
  mapM (λ raw, adapt raw.1 raw.2) raws ≫= np.array = Err e →
  e = np.index_error ∨ e = np.inhomogeneous.
Proof.
  destruct (mapM _ raws) as [rows|e'] eqn:E; simpl.
  - unfold np.array. destruct rows as [|r rs]; [done|].
    destruct (forallb _ rs); [done|]. intros [= <-]. by right.
  - intros [= <-]. left. clear -E.
    induction raws as [|raw raws IH]; simpl in E; [done|].
    destruct (adapt raw.1 raw.2) as [row|e''] eqn:E'; simpl in E.
    + destruct (mapM _ raws); simpl in E; [done|]. injection E as <-. by apply IH.
    + injection E as <-. by eapply take_Err.
Qed.

(** C4, amended.  The batch strategy asks the model for five labels and
    for nothing else.  Neither strategy counts the labels that come back:
    when every text has [n] labels and [n] scores with [n] below five, both
    predictors return rows of length [n]; and the only failures a predictor
    adds to those of the model are NumPy's index and shape errors. *)
Theorem C4_short_predictions_pass_unchecked
    (texts : list string) (raws : list raw_prediction) (n : nat)
    (Hlen : length raws = length texts)
    (Hwf : Forall (λ raw, length raw.1 = n ∧ length raw.2 = n) raws)
    (Hshort : n < class_count) :
  (∀ c c', ft_predict c texts 5 = ft_predict c' texts 5 →
     fasttext_predictor c texts = fasttext_predictor c' texts) ∧
  (∀ c, ft_returns c texts raws →
     ∃ rows, fasttext_predictor c texts = Ok rows ∧
             Forall (λ row, length row = n ∧ length row < class_count) rows) ∧
  (∀ c, fl_returns c texts raws →
     ∃ rows, flair_predictor c texts = Ok rows ∧
             Forall (λ row, length row = n ∧ length row < class_count) rows) ∧
  (∀ c raws' e, length raws' = length texts → ft_returns c texts raws' →
     fasttext_predictor c texts = Err e →
     e = np.index_error ∨ e = np.inhomogeneous) ∧
  (∀ c raws' e, fl_returns c texts raws' →
     flair_predictor c texts = Err e →
     e = np.index_error ∨ e = np.inhomogeneous).
Proof.
  split_and!.
  - intros c c' Heq. by rewrite !fasttext_predictor_eq, Heq.
  - intros c Hc. destruct (rows_rect raws n Hwf) as (rows & Hrows & Hall).
    exists rows. rewrite (ft_returns_run c texts raws); [|done..]. split; [done|].
    clear -Hall Hshort. induction Hall as [|???? [_ ?] _ IH]; constructor; auto with lia.
  - intros c Hc. destruct (rows_rect raws n Hwf) as (rows & Hrows & Hall).
    exists rows. rewrite (flair_run c texts raws); [|done]. split; [done|].
    clear -Hall Hshort. induction Hall as [|???? [_ ?] _ IH]; constructor; auto with lia.
  - intros c raws' e Hlen' Hc. rewrite (ft_returns_run c texts raws'); [|done..].
    apply rows_Err.
  - intros c raws' e Hc. rewrite (flair_run c texts raws'); [|done].
    apply rows_Err.
Qed.

Lemma C4_short_predictions_pass_unchecked_witness :
  ∃ rows, flair_predictor (constant_flair three_raw) [sample_text] = Ok rows ∧
          Forall (λ row, length row = 3 ∧ length row < class_count) rows.
Proof.
  apply (C4_short_predictions_pass_unchecked [sample_text] [three_raw] 3).
  - reflexivity.
  - by repeat constructor.
  - unfold class_count. lia.
  - repeat constructor. by eexists.
Defined.



(** C8. Given one raw prediction per text, each with [n] labels already
    in ascending order and [n] scores, the permutation computed for every
    text is the identity and both predictors return the score sequences as
    they came. *)
Theorem C8_sorted_labels_identity
    (texts : list string) (raws : list raw_prediction) (n : nat)
    (Hlen : length raws = length texts)
    (Hwf : Forall (λ raw, ascending raw.1 ∧ length raw.1 = n ∧ length raw.2 = n) raws) :
  (∀ raw, raw ∈ raws →
     np.argsort String.ltb raw.1 = seq 0 (length raw.1) ∧
     adapt raw.1 raw.2 = Ok raw.2) ∧
  (∀ c, ft_returns c texts raws → fasttext_predictor c texts = Ok raws.*2) ∧
  (∀ c, fl_returns c texts raws → flair_predictor c texts = Ok raws.*2).
Proof.
  assert (mapM (λ raw, adapt raw.1 raw.2) raws ≫= np.array = Ok raws.*2) as Hrun.
  { rewrite (mapM_fmap_Ok _ snd).
    - simpl. apply (array_rect n). apply Forall_fmap.
      eapply Forall_impl; [exact Hwf|]. by intros raw (_ & _ & ?).
    - eapply Forall_impl; [exact Hwf|]. intros raw (Hasc & Hl & Hp).
      apply adapt_ascending; [done | congruence]. }
  split_and!.
  - intros raw Hin. rewrite Forall_forall in Hwf.
    destruct (Hwf raw Hin) as (Hasc & Hl & Hp). split.
    + by apply (argsort_sorted_id String.ltb string_ltb_irrefl string_ltb_trans
                  string_ltb_total).
    + apply adapt_ascending; [done | congruence].
  - intros c Hc. by rewrite (ft_returns_run c texts raws).
  - intros c Hc. by rewrite (flair_run c texts raws).
Qed.

Lemma C8_sorted_labels_identity_witness :
  flair_predictor
    (constant_flair (["1"; "2"; "3"; "4"; "5"]%string,
                     [0.5; 0.2; 0.1; 0.15; 0.05]%float)) [sample_text]
  = Ok [[0.5; 0.2; 0.1; 0.15; 0.05]%float].
Proof.
  apply (C8_sorted_labels_identity
           [sample_text]
           [(["1"; "2"; "3"; "4"; "5"]%string, [0.5; 0.2; 0.1; 0.15; 0.05]%float)] 5).
  - reflexivity.
  - constructor; [|constructor]. split_and!; [|reflexivity..].
    unfold ascending. simpl. repeat constructor.
  - repeat constructor. by eexists.
Defined.

Lemma rows_lookup (raws : list raw_prediction) (rows : list (list score)) :
  mapM (λ raw, adapt raw.1 raw.2) raws ≫= np.array = Ok rows →
  length rows = length raws ∧
  ∀ i raw, raws !! i = Some raw →
    ∃ row, rows !! i = Some row ∧ adapt raw.1 raw.2 = Ok row.
Proof.
  intros Hall%rows_inv. split; [symmetry; by eapply Forall2_length|].
  intros i raw Hi.
  destruct (Forall2_lookup_l _ _ _ _ _ Hall Hi) as (row & Hrow & Hadapt & _).
  by exists row.
Qed.

(** C9. Given one raw prediction per text: whenever a predictor returns,
    it returns one row per text, and the row at each position is computed
    from the raw prediction at that position (for Flair: from what the
    model answers for the text at that position); and it does return when
    the raw predictions have [n] labels and [n] scores each. *)
Theorem C9_one_row_per_text_in_order
    (texts : list string) (raws : list raw_prediction)
    (Hlen : length raws = length texts) :
  (∀ c rows, ft_returns c texts raws → fasttext_predictor c texts = Ok rows →
     length rows = length texts ∧
     ∀ i text, texts !! i = Some text →
       ∃ raw row, raws !! i = Some raw ∧ rows !! i = Some row ∧
                  adapt raw.1 raw.2 = Ok row) ∧
  (∀ c rows, fl_returns c texts raws → flair_predictor c texts = Ok rows →
     length rows = length texts ∧
     ∀ i text, texts !! i = Some text →
       ∃ doc_labels row,
         fl_predict c text true = Ok doc_labels ∧ rows !! i = Some row ∧
         adapt (value <$> doc_labels) (lscore <$> doc_labels) = Ok row) ∧
  (∀ n, Forall (λ raw, length raw.1 = n ∧ length raw.2 = n) raws →
     (∀ c, ft_returns c texts raws → ∃ rows, fasttext_predictor c texts = Ok rows) ∧
     (∀ c, fl_returns c texts raws → ∃ rows, flair_predictor c texts = Ok rows)).
Proof.
  split_and!.
  - intros c rows Hc. rewrite (ft_returns_run c texts raws); [|done..].
    intros [Hrows Hlookup]%rows_lookup. split; [congruence|].
    intros i text Hi.
    destruct (lookup_lt_is_Some_2 raws i) as [raw Hraw].
    { rewrite Hlen. by eapply lookup_lt_Some. }
    destruct (Hlookup i raw Hraw) as (row & ? & ?). by exists raw, row.
  - intros c rows Hc. rewrite (flair_run c texts raws); [|done].
    intros [Hrows Hlookup]%rows_lookup. split; [congruence|].
    intros i text Hi.
    destruct (Forall2_lookup_l _ _ _ _ _ Hc Hi) as (raw & Hraw & d & Hd & ->).
    destruct (Hlookup i _ Hraw) as (row & ? & ?). by exists d, row.
  - intros n Hwf. destruct (rows_rect raws n Hwf) as (rows & Hrows & _).
    split; intros c Hc; exists rows.
    + by rewrite (ft_returns_run c texts raws).
    + by rewrite (flair_run c texts raws).
Qed.

Lemma C9_one_row_per_text_in_order_witness :
  ∃ rows, fasttext_predictor
            (constant_fasttext (scenario_labels, scenario_scores))
            [sample_text; sample_text]
          = Ok rows.
Proof.
  destruct (C9_one_row_per_text_in_order
              [sample_text; sample_text]
              [(scenario_labels, scenario_scores); (scenario_labels, scenario_scores)]
              eq_refl) as (_ & _ & Hrect).
  destruct (Hrect 5) as [Hft _]; [by repeat constructor|].
  apply Hft. reflexivity.
Defined.

Lemma zip3_rect (labels : list (list string)) (probs : list (list score))
    (texts : list string) (n : nat) :
  Forall (λ label, length label = n) labels →
  Forall (λ prob, length prob = n) probs →
  Forall (λ raw, length raw.1 = n ∧ length raw.2 = n) (zip3 labels probs texts).*1.
Proof.
  intros Hl Hp. apply Forall_fmap, Forall_lookup. intros i [[l p] t] Hi.
  apply lookup_zip3 in Hi as (Hli & Hpi & _). simpl.
  rewrite Forall_lookup in Hl. rewrite Forall_lookup in Hp. eauto.
Qed.

(** C10. When FastText returns label and score sequences whose number
    differs from the number of texts (every sequence having [n] entries),
    [fasttext_predictor] raises nothing: it returns as many rows as the
    shortest of the three sequences has entries, each computed from the
    labels and scores at its position.  In [flair_predictor] the model is
    asked once per text, so the three sequences it pairs always have the
    length of [texts] and every returned array has one row per text; no
    check of the lengths exists in either. *)
Theorem C10_length_mismatch_truncates
    (c : fasttext_model) (texts : list string)
    (labels : list (list string)) (probs : list (list score)) (n : nat)
    (Hret : ft_predict c texts 5 = Ok (labels, probs))
    (Hlabels : Forall (λ label, length label = n) labels)
    (Hprobs : Forall (λ prob, length prob = n) probs) :
  (∃ rows, fasttext_predictor c texts = Ok rows ∧
     length rows = length labels `min` (length probs `min` length texts) ∧
     ∀ i row, rows !! i = Some row →
       ∃ label prob, labels !! i = Some label ∧ probs !! i = Some prob ∧
                     adapt label prob = Ok row) ∧
  (∀ c' labels' probs',
     flair_collect c' texts [] [] = Ok (labels', probs') →
     length labels' = length texts ∧ length probs' = length texts) ∧
  (∀ c' rows', flair_predictor c' texts = Ok rows' → length rows' = length texts).
Proof.
  split_and!.
  - destruct (rows_rect _ n (zip3_rect labels probs texts n Hlabels Hprobs))
      as (rows & Hrows & Hall).
    exists rows. rewrite fasttext_predictor_eq, Hret. simpl.
    split_and!; [done| |].
    + rewrite <-(Forall2_length _ _ _ Hall), length_fmap. apply length_zip3.
    + intros i row Hi.
      destruct (Forall2_lookup_r _ _ _ _ _ Hall Hi) as ([l p] & Hraw & Hadapt & _).
      rewrite list_lookup_fmap in Hraw.
      destruct (zip3 labels probs texts !! i) as [[[l' p'] t]|] eqn:Hz; [|done].
      injection Hraw as -> ->. apply lookup_zip3 in Hz as (? & ? & _).
      by exists l, p.
  - intros c' labels' probs'. rewrite flair_collect_eq.
    destruct (mapM _ texts) as [docs|e] eqn:Hdocs; simpl; [|done].
    intros [= <- <-]. apply mapM_length in Hdocs.
    by rewrite !length_fmap.
  - intros c' rows' Hrows'.
    destruct (mapM (λ text, fl_predict c' text true) texts) as [docs|e] eqn:Hdocs.
    + assert (fl_returns c' texts ((λ d : list Label, (value <$> d, lscore <$> d)) <$> docs))
        as Hfl by (apply fl_returns_docs; eauto).
      rewrite (flair_run _ _ _ Hfl) in Hrows'.
      apply rows_lookup in Hrows' as [-> _]. by eapply fl_returns_length.
    + by rewrite flair_predictor_eq, Hdocs in Hrows'.
Qed.

Lemma C10_length_mismatch_truncates_witness :
  ∃ rows,
    fasttext_predictor
      (FastText (λ _ _, Ok ([scenario_labels], [scenario_scores])))
      [sample_text; sample_text]
    = Ok rows ∧
    length rows = 1 `min` (1 `min` 2) ∧
    ∀ i row, rows !! i = Some row →
      ∃ label prob, [scenario_labels] !! i = Some label ∧
                    [scenario_scores] !! i = Some prob ∧
                    adapt label prob = Ok row.
Proof.
  apply (C10_length_mismatch_truncates
           (FastText (λ _ _, Ok ([scenario_labels], [scenario_scores])))
           [sample_text; sample_text] [scenario_labels] [scenario_scores] 5).
  - reflexivity.
  - by repeat constructor.
  - by repeat constructor.
Defined.

(** * The driver: facts *)

Lemma dict_get_keys (d : list (string * string)) (key : string) :
  existsb (String.eqb key) (dict_keys d) = true ↔ is_Some (dict_get d key).
Proof.
  induction d as [|[k v] d IH]; simpl.
  - split; [done | by intros [? ?]].
  - rewrite (String.eqb_sym key k). destruct (String.eqb k key); simpl; [|done].
    split; [by eexists | done].
Qed.

Section driver_facts.
Context {Explanation World : Type} (script_dir : string).
Context (h : oracle Explanation World).

Local Abbreviation prog := (prog Explanation).
Local Abbreviation run := (run World).

Lemma after_nil {R} (r : run R) : after [] r = r.
Proof. by destruct r as [[o t] w]. Qed.

Lemma after_after {R} (t1 t2 : list action) (r : run R) :
  after t1 (after t2 r) = after (t1 ++ t2) r.
Proof. destruct r as [[o t] w]. unfold after. simpl. by rewrite app_assoc. Qed.

Lemma exec_bind {A B} (p : prog A) (f : A → prog B) (w : World) :
  exec h (bind p f) w
  = match exec h p w with
    | (Returned a, t, w') => after t (exec h (f a) w')
    | (Raised e, t, w') => (Raised e, t, w')
    | (Exited status, t, w') => (Exited status, t, w')
    end.
Proof.
  revert w. induction p as [a|e|status|X c k IH]; intros w; simpl.
  - by rewrite after_nil.
  - done.
  - done.
  - destruct (h X c w) as [x w']. rewrite IH.
    destruct (exec h (k x) w') as [[[a|e|status] t] w'']; simpl; [|done..].
    by rewrite after_after.
Qed.

Lemma exec_try_except {A} (p : prog A) (handler : exn → prog A) (w : World) :
  exec h (try_except p handler) w
  = match exec h p w with
    | (Raised e, t, w') => after t (exec h (handler e) w')
    | r => r
    end.
Proof.
  revert w. induction p as [a|e|status|X c k IH]; intros w; simpl.
  - done.
  - by rewrite after_nil.
  - done.
  - destruct (h X c w) as [x w']. rewrite IH.
    destruct (exec h (k x) w') as [[[a|e|status] t] w'']; simpl; [done| |done].
    by rewrite after_after.
Qed.

Lemma exec_exit_free {R} (p : prog R) (w : World) :
  exit_free p → ∀ status, (exec h p w).1.1 ≠ Exited status.
Proof.
  revert w. induction p as [a|e|status'|X c k IH]; intros w Hp status; simpl; try done.
  destruct (h X c w) as [x w']. simpl in Hp.
  specialize (IH x w' (Hp x) status).
  by destruct (exec h (k x) w') as [[o t] w''].
Qed.

Lemma exit_free_bind {A B} (p : prog A) (f : A → prog B) :
  exit_free p → (∀ a, exit_free (f a)) → exit_free (bind p f).
Proof. induction p; simpl; auto. Qed.

Lemma exit_free_invoke {X} (c : call Explanation (result X)) : exit_free (invoke c).
Proof. by intros [x|e]. Qed.

Lemma exit_free_main method path_to_model text :
  exit_free (main Explanation method path_to_model text).
Proof.
  unfold main. apply exit_free_bind.
  - destruct (String.eqb method "fasttext"); [|destruct (String.eqb method "flair")].
    + apply exit_free_bind; [apply exit_free_invoke | done].
    + apply exit_free_bind; [apply exit_free_invoke | done].
    + done.
  - intros predictor. apply exit_free_invoke.
Qed.

Lemma exit_free_explain_sample method path_to_model i text :
  exit_free (explain_sample Explanation script_dir method path_to_model i text).
Proof.
  unfold explain_sample. apply exit_free_bind; [apply exit_free_main|].
  intros exp. apply exit_free_bind; [apply exit_free_invoke|]. by intros [].
Qed.

Lemma exit_free_explain_samples method path_to_model i texts :
  exit_free (explain_samples Explanation script_dir method path_to_model i texts).
Proof.
  revert i. induction texts as [|text texts IH]; intros i; simpl; [done|].
  apply exit_free_bind; [apply exit_free_explain_sample | auto].
Qed.

Lemma method_block_eq method :
  method_block Explanation script_dir method
  = try_except
      (bind (match dict_get METHODS method with
             | Some path_to_model => Return path_to_model
             | None => Raise (Exn KeyError method)
             end) (λ path_to_model,
         explain_samples Explanation script_dir method path_to_model 0 samples))
      (λ e, print (str_of_exn e)).
Proof. reflexivity. Qed.

Lemma method_turn_eq method :
  method_turn Explanation script_dir method
  = bind
      (if negb (existsb (String.eqb method) (dict_keys METHODS)) then
         parser_error usage
       else Return tt)
      (λ _, method_block Explanation script_dir method).
Proof. reflexivity. Qed.

End driver_facts.

Example usage_text :
  usage = ("Please choose from the below existing methods! "
           ++ String (ascii_of_nat 10) "fasttext, flair")%string.
Proof. reflexivity. Qed.

Section driver_claims.
Context {Explanation World : Type} (script_dir : string).
Context (h : oracle Explanation World).

Local Abbreviation method_block := (method_block Explanation script_dir).
Local Abbreviation method_turn := (method_turn Explanation script_dir).
Local Abbreviation script := (script Explanation script_dir).
Local Abbreviation explain_sample := (explain_sample Explanation script_dir).
Local Abbreviation explain_samples := (explain_samples Explanation script_dir).

Lemma exec_print (msg : string) (w : World) :
  exec h (print msg) w = (Returned tt, [APrint msg], (h _ (Print msg) w).2).
Proof. simpl. by destruct (h _ (Print msg) w) as [[] w']. Qed.

Lemma exec_parser_error (msg : string) (w : World) :
  exec h (parser_error (R := unit) msg) w
  = (Exited 2, [AParserError msg], (h _ (ParserError msg) w).2).
Proof. simpl. by destruct (h _ (ParserError msg) w) as [[] w']. Qed.

Lemma exec_explain_samples_app method path i before rest (w : World) :
  exec h (explain_samples method path i (before ++ rest)) w
  = match exec h (explain_samples method path i before) w with
    | (Returned _, t, w') =>
        after t (exec h (explain_samples method path (i + length before) rest) w')
    | r => r
    end.
Proof.
  revert i w. induction before as [|text before IH]; intros i w; simpl.
  - by rewrite Nat.add_0_r, after_nil.
  - rewrite !exec_bind.
    destruct (exec h (explain_sample method path i text) w) as [[[[]|e|status] t] w'];
      [|done..].
    rewrite IH.
    destruct (exec h (explain_samples method path (S i) before) w')
      as [[[[]|e|status] t'] w'']; simpl; [|done..].
    by rewrite after_after, Nat.add_succ_r.
Qed.

Lemma exec_method_block_known method path (w : World) :
  dict_get METHODS method = Some path →
  exec h (method_block method) w
  = match exec h (explain_samples method path 0 samples) w with
    | (Raised e, t, w') =>
        (Returned tt, t ++ [APrint (str_of_exn e)], (h _ (Print (str_of_exn e)) w').2)
    | r => r
    end.
Proof.
  intros Hknown. rewrite method_block_eq.
  rewrite exec_try_except, Hknown. simpl bind.
  destruct (exec h _ w) as [[[[]|e|status] t] w']; [done| |done].
  by rewrite exec_print.
Qed.

(** The [try] statement of a known method always falls through. *)
Lemma method_block_returns method path (w : World) :
  dict_get METHODS method = Some path →
  ∃ t w', exec h (method_block method) w = (Returned tt, t, w').
Proof.
  intros Hknown. rewrite (exec_method_block_known _ _ _ Hknown).
  pose proof (exec_exit_free h _ w
                (exit_free_explain_samples script_dir method path 0 samples)) as Hfree.
  destruct (exec h _ w) as [[[[]|e|status] t] w']; eauto.
  by destruct (Hfree status).
Qed.

Lemma exec_method_turn_known method path (w : World) :
  dict_get METHODS method = Some path →
  exec h (method_turn method) w = exec h (method_block method) w.
Proof.
  intros Hknown. rewrite method_turn_eq.
  assert (existsb (String.eqb method) (dict_keys METHODS) = true) as ->.
  { apply dict_get_keys. by rewrite Hknown. }
  done.
Qed.

Lemma exec_method_turn_unknown method (w : World) :
  dict_get METHODS method = None →
  exec h (method_turn method) w
  = (Exited 2, [AParserError usage], (h _ (ParserError usage) w).2).
Proof.
  intros Hunknown. rewrite method_turn_eq.
  assert (existsb (String.eqb method) (dict_keys METHODS) = false) as ->.
  { destruct (existsb _ _) eqn:E; [|done].
    apply dict_get_keys in E as [? E]. congruence. }
  simpl negb. cbv iota. rewrite exec_bind, exec_parser_error. done.
Qed.

Lemma exec_script_known method path rest (w : World) :
  dict_get METHODS method = Some path →
  exec h (script (method :: rest)) w
  = match exec h (method_block method) w with
    | (Returned _, t, w') => after t (exec h (script rest) w')
    | (Raised e, t, w') => (Raised e, t, w')
    | (Exited status, t, w') => (Exited status, t, w')
    end.
Proof.
  intros Hknown. simpl. by rewrite exec_bind, (exec_method_turn_known _ _ _ Hknown).
Qed.

(** An unknown method at the head of the list: the message, exit status 2,
    and nothing else. *)
Lemma unknown_first_does_no_work method rest (w : World) :
  dict_get METHODS method = None →
  exec h (script (method :: rest)) w
  = (Exited 2, [AParserError usage], (h _ (ParserError usage) w).2).
Proof.
  intros Hunknown. simpl. by rewrite exec_bind, exec_method_turn_unknown.
Qed.

Lemma fasttext_block_loads_first (w : World) :
  ∃ t w', exec h (method_block "fasttext") w
          = (Returned tt, ALoadFasttext "models/fasttext/sst.bin" :: t, w').
Proof.
  rewrite (exec_method_block_known "fasttext" "models/fasttext/sst.bin"); [|done].
  pose proof (exec_exit_free h _ w
                (exit_free_explain_samples script_dir "fasttext"
                   "models/fasttext/sst.bin" 0 samples)) as Hfree.
  assert (∃ o t w', exec h (explain_samples "fasttext" "models/fasttext/sst.bin" 0 samples) w
                    = (o, ALoadFasttext "models/fasttext/sst.bin" :: t, w'))
    as (o & t & w' & Hrun).
  { simpl. destruct (h _ (LoadFasttext "models/fasttext/sst.bin") w) as [r w1].
    destruct (exec h _ w1) as [[o t] w']. by exists o, t, w'. }
  rewrite Hrun in Hfree |- *. destruct o as [[]|e|status]; eauto.
  by destruct (Hfree status).
Qed.

(** C5, at [--method fasttext doesnotexist]: whatever the world answers,
    the run starts by loading the FastText model, and only after the work
    for [fasttext] reports the unknown method and exits with status 2. *)
Theorem C5_known_method_runs_before_unknown_is_reported (w : World) :
  ∃ t w', exec h (script ["fasttext"; "doesnotexist"]) w
          = (Exited 2,
             ALoadFasttext "models/fasttext/sst.bin" :: t ++ [AParserError usage],
             w').
Proof.
  destruct (fasttext_block_loads_first w) as (t & w' & Hblock).
  rewrite (exec_script_known "fasttext" "models/fasttext/sst.bin"), Hblock; [|done].
  rewrite unknown_first_does_no_work; [|done].
  by exists t, (h _ (ParserError usage) w').2.
Qed.

End driver_claims.

(** * Further properties of the predictors *)

Lemma mapM_app_Err {A B} (f : A → result B) (l1 l2 : list A) (x : A) (k : list B) (e : exn) :
  mapM f l1 = Ok k → f x = Err e → mapM f (l1 ++ x :: l2) = Err e.
Proof.
  revert k. induction l1 as [|y l1 IH]; intros k; simpl.
  - intros _ ->. done.
  - destruct (f y) as [b|e']; simpl; [|done].
    destruct (mapM f l1) as [k'|e'] eqn:E; simpl; [|done].
    intros _ Hx. by rewrite (IH k' eq_refl Hx).
Qed.

Lemma adapt_index_error label prob :
  length prob < length label → adapt label prob = Err np.index_error.
Proof.
  intros Hlt. destruct (adapt label prob) as [row|e] eqn:E.
  - unfold adapt in E. apply take_Ok in E.
    assert (length prob ∈ np.argsort String.ltb label) as Hin.
    { rewrite argsort_perm. apply elem_of_seq. lia. }
    apply list_elem_of_lookup in Hin as [j Hj].
    destruct (Forall2_lookup_l _ _ _ _ _ E Hj) as (x & _ & Hx).
    apply lookup_lt_Some in Hx. lia.
  - f_equal. by eapply take_Err.
Qed.

Lemma array_Ok_rect {A} (rows out : list (list A)) :
  np.array rows = Ok out → ∃ n, Forall (λ r, length r = n) rows.
Proof.
  unfold np.array. destruct rows as [|r rs]; [by exists 0|].
  destruct (forallb _ rs) eqn:E; [|done]. intros _. exists (length r).
  constructor; [done|]. apply Forall_forall. intros r' Hr'%list_elem_of_In.
  rewrite forallb_forall in E. by apply Nat.eqb_eq, E.
Qed.

Lemma adapt_keeps_pairs (raw : raw_prediction) :
  length raw.1 = length raw.2 →
  ∃ row, adapt raw.1 raw.2 = Ok row ∧ keeps_pairs raw row ∧ row ≡ₚ raw.2.
Proof.
  intros Hlen.
  destruct (take_argsort_pairs String.ltb string_ltb_irrefl string_ltb_trans
              (zip raw.1 raw.2)) as (Q & HQ & Hsorted & Htake).
  rewrite fst_zip, snd_zip in Htake by lia.
  exists Q.*2. split_and!; [done| |].
  - by exists Q.
  - rewrite HQ. by rewrite snd_zip by lia.
Qed.

(** X1. Given one raw prediction per text, each with [n] labels and [n]
    scores (labels may repeat), both predictors return one row per text;
    the row holds exactly the scores of that text, each still paired with
    its own label, the labels in non-descending order. *)
Theorem X1_rows_keep_label_score_pairs
    (texts : list string) (raws : list raw_prediction) (n : nat)
    (Hlen : length raws = length texts)
    (Hwf : Forall (λ raw, length raw.1 = n ∧ length raw.2 = n) raws) :
  (∀ c, ft_returns c texts raws →
     ∃ rows, fasttext_predictor c texts = Ok rows ∧
             Forall2 (λ raw row, keeps_pairs raw row ∧ row ≡ₚ raw.2) raws rows) ∧
  (∀ c, fl_returns c texts raws →
     ∃ rows, flair_predictor c texts = Ok rows ∧
             Forall2 (λ raw row, keeps_pairs raw row ∧ row ≡ₚ raw.2) raws rows).
Proof.
  destruct (rows_rect raws n Hwf) as (rows & Hrows & Hall).
  assert (Forall2 (λ raw row, keeps_pairs raw row ∧ row ≡ₚ raw.2) raws rows) as Hkeep.
  { eapply Forall2_rows_impl; [exact Hall|].
    intros raw row Hin [Hrow _]. rewrite Forall_forall in Hwf.
    destruct (Hwf raw Hin) as [Hl Hp].
    destruct (adapt_keeps_pairs raw) as (row' & Hrow' & ? & ?); [congruence|].
    rewrite Hrow in Hrow'. by injection Hrow' as <-. }
  split; intros c Hc; exists rows.
  - by rewrite (ft_returns_run c texts raws).
  - by rewrite (flair_run c texts raws).
Qed.

Lemma X1_rows_keep_label_score_pairs_witness :
  ∃ rows, flair_predictor (constant_flair dup_raw) [sample_text] = Ok rows ∧
          Forall2 (λ raw row, keeps_pairs raw row ∧ row ≡ₚ raw.2) [dup_raw] rows.
Proof.
  apply (X1_rows_keep_label_score_pairs [sample_text] [dup_raw] 2).
  - reflexivity.
  - by repeat constructor.
  - repeat constructor. by eexists.
Defined.

(** X2. [flair_predictor] asks the model text by text: when the model
    raises on a text after answering the earlier ones, that exception is
    what the predictor raises, whatever texts follow. *)
Theorem X2_flair_stops_at_first_failing_text
    (c : flair_model) (before later : list string) (text : string)
    (docs : list (list Label)) (e : exn)
    (Hbefore : Forall2 (λ t d, fl_predict c t true = Ok d) before docs)
    (Htext : fl_predict c text true = Err e) :
  flair_predictor c (before ++ text :: later) = Err e.
Proof.
  rewrite flair_predictor_eq.
  rewrite (mapM_app_Err _ before later text docs e); [done| |done].
  by apply mapM_Ok.
Qed.

Lemma X2_flair_stops_at_first_failing_text_witness :
  flair_predictor picky_flair ["a"; "b"; ""; "c"]%string
  = Err (Exn ValueError "empty text").
Proof.
  apply (X2_flair_stops_at_first_failing_text picky_flair ["a"; "b"]%string
           ["c"]%string ""%string
           [[mkLabel "1" 1%float]; [mkLabel "1" 1%float]]).
  - by repeat constructor.
  - reflexivity.
Defined.

(** X3. When FastText gives some text more labels than scores, and every
    earlier text at least as many scores as labels, [fasttext_predictor]
    raises NumPy's index error. *)
Theorem X3_fasttext_more_labels_than_scores
    (c : fasttext_model) (texts : list string)
    (before later : list raw_prediction) (raw : raw_prediction)
    (Hret : ft_returns c texts (before ++ raw :: later))
    (Hlen : length (before ++ raw :: later) ≤ length texts)
    (Hbefore : Forall (λ r, length r.1 ≤ length r.2) before)
    (Hraw : length raw.2 < length raw.1) :
  fasttext_predictor c texts = Err np.index_error.
Proof.
  rewrite (fasttext_run c texts _ Hret Hlen).
  destruct (rows_total before Hbefore) as [rows Hrows].
  rewrite (mapM_app_Err _ before later raw rows np.index_error); [done..|].
  by apply adapt_index_error.
Qed.

Lemma X3_fasttext_more_labels_than_scores_witness :
  fasttext_predictor
    (FastText (λ _ _, Ok ([["1"; "2"]%string], [[0.5%float]]))) [sample_text]
  = Err np.index_error.
Proof.
  apply (X3_fasttext_more_labels_than_scores _ [sample_text] [] []
           (["1"; "2"]%string, [0.5%float])).
  - reflexivity.
  - simpl. lia.
  - constructor.
  - simpl. lia.
Defined.

(** X4. Once the Flair model has answered every text, [flair_predictor]
    either returns or raises NumPy's shape error; it returns exactly when
    all texts got the same number of labels. *)
Theorem X4_flair_fails_only_on_ragged_answers
    (c : flair_model) (texts : list string) (raws : list raw_prediction)
    (Hret : fl_returns c texts raws) :
  ((∃ rows, flair_predictor c texts = Ok rows) ∨
   flair_predictor c texts = Err np.inhomogeneous) ∧
  ((∃ rows, flair_predictor c texts = Ok rows) ↔
   ∃ n, Forall (λ raw, length raw.1 = n) raws).
Proof.
  pose proof (fl_returns_parallel _ _ _ Hret) as Hpar.
  rewrite (flair_run c texts raws Hret).
  destruct (rows_total raws) as [rows Hrows].
  { eapply Forall_impl; [exact Hpar|]. intros ? ?. simpl in *. lia. }
  rewrite Hrows. simpl.
  apply rows_lengths in Hrows as Hlens.
  assert (∀ n, Forall (λ row, length row = n) rows ↔
               Forall (λ raw : raw_prediction, length raw.1 = n) raws) as Hsame.
  { intros n. clear -Hlens. induction Hlens as [|raw row raws rows [_ Hl] _ IH].
    - split; constructor.
    - rewrite !Forall_cons, IH, Hl. done. }
  split.
  - destruct (array_shape rows rows eq_refl) as [[Ha _]|[Ha _]]; eauto.
  - split.
    + intros [out Hout]. apply array_Ok_rect in Hout as [n Hn].
      exists n. by apply Hsame.
    + intros [n Hn]. exists rows. apply (array_rect n). by apply Hsame.
Qed.

Lemma X4_flair_fails_only_on_ragged_answers_witness :
  (∃ rows, flair_predictor (constant_flair three_raw) [sample_text] = Ok rows) ↔
  ∃ n, Forall (λ raw : raw_prediction, length raw.1 = n) [three_raw].
Proof.
  apply (X4_flair_fails_only_on_ragged_answers
           (constant_flair three_raw) [sample_text] [three_raw]).
  repeat constructor. by eexists.
Defined.

Lemma mapM_Forall_ext {A B} (f g : A → result B) (l : list A) :
  Forall (λ x, f x = g x) l → mapM f l = mapM g l.
Proof. induction 1 as [|x l Hx _ IH]; simpl; [done|]. by rewrite Hx, IH. Qed.

Lemma adapt_surplus label prob :
  adapt label prob = adapt label (take (length label) prob).
Proof.
  unfold adapt, np.take. apply mapM_Forall_ext.
  eapply Forall_impl; [apply argsort_bound|].
  intros i Hi. simpl in *. by rewrite lookup_take_lt.
Qed.

(** X5. [fasttext_predictor] never reads a score beyond the number of
    labels of its text: a model that leaves out those surplus scores gets
    the same result. *)
Theorem X5_fasttext_ignores_surplus_scores
    (c c' : fasttext_model) (texts : list string) (raws : list raw_prediction)
    (Hlen : length raws ≤ length texts)
    (Hc : ft_returns c texts raws)
    (Hc' : ft_returns c' texts ((λ raw, (raw.1, take (length raw.1) raw.2)) <$> raws)) :
  fasttext_predictor c texts = fasttext_predictor c' texts.
Proof.
  rewrite (fasttext_run c texts _ Hc Hlen).
  rewrite (fasttext_run c' texts _ Hc'); [|by rewrite length_fmap].
  rewrite <-mapM_fmap. f_equal. apply mapM_ext. intros raw. apply adapt_surplus.
Qed.

Lemma X5_fasttext_ignores_surplus_scores_witness :
  fasttext_predictor
    (FastText (λ _ _, Ok ([["2"; "1"]%string], [[0.5; 0.25; 0.125]%float]))) [sample_text]
  = fasttext_predictor
      (FastText (λ _ _, Ok ([["2"; "1"]%string], [[0.5; 0.25]%float]))) [sample_text].
Proof.
  apply (X5_fasttext_ignores_surplus_scores _ _ [sample_text]
           [(["2"; "1"]%string, [0.5; 0.25; 0.125]%float)]).
  - simpl. lia.
  - reflexivity.
  - reflexivity.
Defined.

(** X6. When FastText answers with one raw prediction per text, each with
    at least as many scores as labels, [fasttext_predictor] either returns
    or raises NumPy's shape error; it returns exactly when all texts got
    the same number of labels. *)
Theorem X6_fasttext_fails_on_ragged_answers
    (c : fasttext_model) (texts : list string) (raws : list raw_prediction)
    (Hret : ft_returns c texts raws)
    (Hlen : length raws ≤ length texts)
    (Henough : Forall (λ raw, length raw.1 ≤ length raw.2) raws) :
  ((∃ rows, fasttext_predictor c texts = Ok rows) ∨
   fasttext_predictor c texts = Err np.inhomogeneous) ∧
  ((∃ rows, fasttext_predictor c texts = Ok rows) ↔
   ∃ n, Forall (λ raw, length raw.1 = n) raws).
Proof.
  rewrite (fasttext_run c texts raws Hret Hlen).
  destruct (rows_total raws Henough) as [rows Hrows].
  rewrite Hrows. simpl.
  apply rows_lengths in Hrows as Hlens.
  assert (∀ n, Forall (λ row, length row = n) rows ↔
               Forall (λ raw : raw_prediction, length raw.1 = n) raws) as Hsame.
  { intros n. clear -Hlens. induction Hlens as [|raw row raws rows [_ Hl] _ IH].
    - split; constructor.
    - rewrite !Forall_cons, IH, Hl. done. }
  split.
  - destruct (array_shape rows rows eq_refl) as [[Ha _]|[Ha _]]; eauto.
  - split.
    + intros [out Hout]. apply array_Ok_rect in Hout as [n Hn].
      exists n. by apply Hsame.
    + intros [n Hn]. exists rows. apply (array_rect n). by apply Hsame.
Qed.

Lemma X6_fasttext_fails_on_ragged_answers_witness :
  (∃ rows, fasttext_predictor
             (FastText (λ _ _, Ok ([["1"]; ["1"; "2"]]%string,
                                   [[1]; [0.5; 0.5]]%float)))
             [sample_text; sample_text] = Ok rows) ∨
  fasttext_predictor
    (FastText (λ _ _, Ok ([["1"]; ["1"; "2"]]%string, [[1]; [0.5; 0.5]]%float)))
    [sample_text; sample_text] = Err np.inhomogeneous.
Proof.
  apply (X6_fasttext_fails_on_ragged_answers _ [sample_text; sample_text]
           [(["1"]%string, [1%float]); (["1"; "2"]%string, [0.5; 0.5]%float)]).
  - reflexivity.
  - simpl. lia.
  - repeat constructor.
Defined.

(** X7. [fasttext_predictor] never returns more rows than it was given
    texts, however many predictions the model returns; for an empty list of
    texts it returns the empty array whenever the model returns at all.
    [flair_predictor] returns the empty array for an empty list whatever
    the model. *)
Theorem X7_no_more_rows_than_texts
    (c : fasttext_model) (texts : list string) (rows : list (list score))
    (Hrows : fasttext_predictor c texts = Ok rows) :
  length rows ≤ length texts ∧
  (texts = [] → rows = []) ∧
  (∀ c', flair_predictor c' [] = Ok []).
Proof.
  assert (length rows ≤ length texts) as Hle.
  { rewrite fasttext_predictor_eq in Hrows.
    destruct (ft_predict c texts 5) as [[labels probs]|e]; simpl in Hrows; [|done].
    apply bind_Ok in Hrows as (rows' & Hmap & ->%array_Ok_inv).
    apply mapM_length in Hmap. rewrite Hmap, length_fmap, length_zip3. lia. }
  split_and!; [done| |done].
  intros ->. destruct rows; [done | simpl in Hle; lia].
Qed.

Lemma X7_no_more_rows_than_texts_witness :
  length [scenario_scores] ≤ length [sample_text].
Proof.
  apply (X7_no_more_rows_than_texts
           (FastText (λ _ _,
              Ok ([["1"; "2"; "3"; "4"; "5"]%string; ["1"; "2"; "3"; "4"; "5"]%string],
                  [scenario_scores; scenario_scores])))
           [sample_text] [scenario_scores]).
  reflexivity.
Defined.

(** * Further properties of the driver *)

(** ** File names *)

Lemma append_cons (a : ascii) (s t : string) :
  String.append (String a s) t = String a (String.append s t).
Proof. reflexivity. Qed.

Lemma length_append (s t : string) :
  String.length (String.append s t) = String.length s + String.length t.
Proof.
  induction s as [|a s IH]; [done|]. rewrite append_cons. simpl. by rewrite IH.
Qed.

Lemma append_inj_r (s1 s2 t : string) :
  String.append s1 t = String.append s2 t → s1 = s2.
Proof.
  revert s2. induction s1 as [|a s1 IH]; intros [|b s2] H; [done| | |].
  - apply (f_equal String.length) in H. rewrite !length_append in H. simpl in H. lia.
  - apply (f_equal String.length) in H. rewrite !length_append in H. simpl in H. lia.
  - rewrite !append_cons in H. injection H as -> H. f_equal. by apply IH.
Qed.

Lemma no_dash_string_of_uint (d : Decimal.uint) : no_dash (NilEmpty.string_of_uint d).
Proof. induction d; simpl; auto. Qed.

Lemma no_dash_split (s1 s2 r1 r2 : string) :
  no_dash s1 → no_dash s2 →
  String.append s1 (String "-" r1) = String.append s2 (String "-" r2) →
  s1 = s2 ∧ r1 = r2.
Proof.
  revert s2. induction s1 as [|a s1 IH]; intros [|b s2] H1 H2 H.
  - by injection H as ->.
  - rewrite append_cons in H. injection H as <- _. by destruct H2.
  - rewrite append_cons in H. injection H as -> _. by destruct H1.
  - rewrite !append_cons in H. injection H as -> H.
    destruct H1 as [_ H1], H2 as [_ H2].
    destruct (IH s2 H1 H2 H) as [-> ->]. done.
Qed.

Lemma str_of_nat_inj (i j : nat) : str_of_nat i = str_of_nat j → i = j.
Proof.
  unfold str_of_nat. intros H. apply Unsigned.to_uint_inj.
  apply (f_equal NilEmpty.uint_of_string) in H.
  rewrite !NilEmpty.usu in H. by injection H.
Qed.

(** X14. Within one directory, two turns write to the same file only if
    they have the same index and the same method. *)
Theorem X14_output_filename_injective (script_dir : string) (i j : nat)
    (method method' : string)
    (Hsame : output_filename script_dir i method = output_filename script_dir j method') :
  i = j ∧ method = method'.
Proof.
  unfold output_filename in Hsame.
  apply (inj (String.app script_dir)) in Hsame.
  change (String.append "/" ?s) with (String "/" s) in Hsame.
  injection Hsame as Hsame.
  change (String.append "-explanation-" ?s)
    with (String "-" (String.append "explanation-" s)) in Hsame.
  apply no_dash_split in Hsame as [Hi Hm]; [|apply no_dash_string_of_uint..].
  split; [by apply str_of_nat_inj|].
  apply (inj (String.app "explanation-")) in Hm.
  by apply append_inj_r in Hm.
Qed.

Lemma X14_output_filename_injective_witness : 0 = 0 ∧ "flair"%string = "flair"%string.
Proof.
  apply (X14_output_filename_injective "." 0 0 "flair" "flair"). reflexivity.
Defined.

(** ** [main] and the loops *)

Section driver_more.
Context {Explanation World : Type} (script_dir : string).
Context (h : oracle Explanation World).

Local Abbreviation method_block := (method_block Explanation script_dir).
Local Abbreviation script := (script Explanation script_dir).
Local Abbreviation explain_samples := (explain_samples Explanation script_dir).

(** X8. For a method other than [fasttext] and [flair], [main] raises
    at once, without loading or explaining anything; the message holds
    the placeholder [{}] itself, since line 78 never formats it. *)
Theorem X8_main_rejects_other_methods
    (w : World) (method path_to_model text : string)
    (Hft : method ≠ "fasttext"%string) (Hfl : method ≠ "flair"%string) :
  exec h (main Explanation method path_to_model text) w
  = (Raised (Exn Exception "Requested method {} explainer function not implemented!"),
     [], w).
Proof.
  unfold main.
  destruct (String.eqb_spec method "fasttext"); [done|].
  destruct (String.eqb_spec method "flair"); [done|].
  reflexivity.
Qed.

(** X9. [main] for [fasttext] loads the model from the given path and,
    only if that succeeds, asks LIME once for an explanation of the text,
    with [fasttext_predictor] bound to the loaded model as classifier
    function, one top label, ten features, word order kept and classes
    1 to 5; an exception of either call is the exception of [main].  The
    same holds for [flair] with [flair_predictor]. *)
Theorem X9_main_loads_then_explains (w : World) (path_to_model text : string) :
  exec h (main Explanation "fasttext" path_to_model text) w
  = (match h _ (LoadFasttext path_to_model) w with
     | (Err e, w1) => (Raised e, [ALoadFasttext path_to_model], w1)
     | (Ok classifier, w1) =>
         match h _ (ExplainInstance
                      {| bow := false; class_names := [1; 2; 3; 4; 5]%Z |}
                      text (fasttext_predictor classifier) 1 10) w1 with
         | (Ok exp, w2) =>
             (Returned exp, [ALoadFasttext path_to_model; AExplain text], w2)
         | (Err e, w2) =>
             (Raised e, [ALoadFasttext path_to_model; AExplain text], w2)
         end
     end) ∧
  exec h (main Explanation "flair" path_to_model text) w
  = (match h _ (LoadFlair path_to_model) w with
     | (Err e, w1) => (Raised e, [ALoadFlair path_to_model], w1)
     | (Ok classifier, w1) =>
         match h _ (ExplainInstance
                      {| bow := false; class_names := [1; 2; 3; 4; 5]%Z |}
                      text (flair_predictor classifier) 1 10) w1 with
         | (Ok exp, w2) =>
             (Returned exp, [ALoadFlair path_to_model; AExplain text], w2)
         | (Err e, w2) =>
             (Raised e, [ALoadFlair path_to_model; AExplain text], w2)
         end
     end).
Proof.
  split.
  - simpl. destruct (h _ (LoadFasttext path_to_model) w) as [[classifier|e] w1]; [|done].
    simpl. by destruct (h _ (ExplainInstance _ _ _ _ _) w1) as [[exp|e] w2].
  - simpl. destruct (h _ (LoadFlair path_to_model) w) as [[classifier|e] w1]; [|done].
    simpl. by destruct (h _ (ExplainInstance _ _ _ _ _) w1) as [[exp|e] w2].
Qed.

(** *** One turn and the loop over the texts *)

Lemma exec_explain_sample method path_to_model i text (w : World) :
  ∃ o t w',
    exec h (explain_sample Explanation script_dir method path_to_model i text) w
    = (o, t, w') ∧
    t `prefix_of` sample_actions script_dir method path_to_model i text ∧
    (∀ r, o = Returned r → t = sample_actions script_dir method path_to_model i text) ∧
    (∀ status, o ≠ Exited status).
Proof.
  unfold explain_sample, main, sample_actions, load_action.
  destruct (String.eqb method "fasttext") eqn:Hft;
    [|destruct (String.eqb method "flair") eqn:Hfl].
  - simpl. destruct (h _ (LoadFasttext path_to_model) w) as [[classifier|e] w1]; simpl.
    + destruct (h _ (ExplainInstance _ _ _ _ _) w1) as [[exp|e] w2]; simpl.
      * destruct (h _ (SaveToFile _ _) w2) as [[[]|e] w3]; simpl.
        -- destruct (h _ (Print _) w3) as [[] w4]. simpl.
           eexists _, _, _. split_and!; [done| |done..]. by exists [].
        -- eexists _, _, _. split_and!; [done| |done..]. by eexists [_].
      * eexists _, _, _. split_and!; [done| |done..]. by eexists [_; _].
    + eexists _, _, _. split_and!; [done| |done..]. by eexists [_; _; _].
  - simpl. destruct (h _ (LoadFlair path_to_model) w) as [[classifier|e] w1]; simpl.
    + destruct (h _ (ExplainInstance _ _ _ _ _) w1) as [[exp|e] w2]; simpl.
      * destruct (h _ (SaveToFile _ _) w2) as [[[]|e] w3]; simpl.
        -- destruct (h _ (Print _) w3) as [[] w4]. simpl.
           eexists _, _, _. split_and!; [done| |done..]. by exists [].
        -- eexists _, _, _. split_and!; [done| |done..]. by eexists [_].
      * eexists _, _, _. split_and!; [done| |done..]. by eexists [_; _].
    + eexists _, _, _. split_and!; [done| |done..]. by eexists [_; _; _].
  - simpl. eexists _, _, _. split_and!; [done| |done..]. by eexists.
Qed.

Lemma exec_explain_samples_trace method path_to_model texts i (w : World) :
  ∃ o t w',
    exec h (explain_samples method path_to_model i texts) w = (o, t, w') ∧
    t `prefix_of` samples_actions script_dir method path_to_model i texts ∧
    (∀ r, o = Returned r →
       t = samples_actions script_dir method path_to_model i texts) ∧
    (∀ status, o ≠ Exited status).
Proof.
  revert i w. induction texts as [|text texts IH]; intros i w.
  - exists (Returned tt), [], w. by split_and!.
  - simpl explain_samples. rewrite exec_bind.
    destruct (exec_explain_sample method path_to_model i text w)
      as (o1 & t1 & w1 & -> & Hpre1 & Heq1 & Hexit1).
    destruct o1 as [[]|e|status].
    + destruct (IH (S i) w1) as (o2 & t2 & w2 & -> & Hpre2 & Heq2 & Hexit2).
      exists o2, (t1 ++ t2), w2.
      change (samples_actions script_dir method path_to_model i (text :: texts))
        with (sample_actions script_dir method path_to_model i text
              ++ samples_actions script_dir method path_to_model (S i) texts).
      rewrite (Heq1 tt eq_refl). split_and!; [done| | |done].
      * by apply prefix_app.
      * intros r Hr. by rewrite (Heq2 r Hr).
    + exists (Raised e), t1, w1. split_and!; [done| |done..].
      change (samples_actions script_dir method path_to_model i (text :: texts))
        with (sample_actions script_dir method path_to_model i text
              ++ samples_actions script_dir method path_to_model (S i) texts).
      by apply prefix_app_r.
    + by destruct (Hexit1 status).
Qed.

Lemma loads_of_samples_actions method path_to_model i texts :
  length (List.filter is_load (samples_actions script_dir method path_to_model i texts))
  = length texts.
Proof.
  revert i. induction texts as [|text texts IH]; intros i; [done|].
  simpl. unfold load_action.
  destruct (String.eqb method "fasttext"); simpl; by rewrite IH.
Qed.

(** X13. When the loop over the texts ends without an exception, what
    happened is, for every text in turn: load the model of the method,
    explain the text, save under the name numbered from the loop's first
    index, print the message numbered one higher.  So the model is loaded
    once for every text. *)
Theorem X13_loop_reloads_model_for_each_text
    (w w' : World) (method path_to_model : string) (i : nat)
    (texts : list string) (t : list action)
    (Hrun : exec h (explain_samples method path_to_model i texts) w
            = (Returned tt, t, w')) :
  t = samples_actions script_dir method path_to_model i texts ∧
  length (List.filter is_load t) = length texts.
Proof.
  destruct (exec_explain_samples_trace method path_to_model texts i w)
    as (o & t0 & w0 & Hexec & _ & Heq & _).
  rewrite Hrun in Hexec. injection Hexec as <- <- <-.
  rewrite (Heq tt eq_refl). split; [done|]. apply loads_of_samples_actions.
Qed.

Lemma method_block_sequence (w : World) (method path_to_model : string) :
  dict_get METHODS method = Some path_to_model →
  ∃ t w',
    exec h (method_block method) w = (Returned tt, t, w') ∧
    (t = samples_actions script_dir method path_to_model 0 samples ∨
     ∃ done_before e,
       t = done_before ++ [APrint (str_of_exn e)] ∧
       done_before `prefix_of` samples_actions script_dir method path_to_model 0 samples).
Proof.
  intros Hknown. rewrite (exec_method_block_known script_dir h _ _ _ Hknown).
  destruct (exec_explain_samples_trace method path_to_model samples 0 w)
    as (o & t & w' & -> & Hpre & Heq & Hexit).
  destruct o as [[]|e|status].
  - exists t, w'. split; [done|]. left. by apply (Heq tt).
  - eexists _, _. split; [done|]. right. by exists t, e.
  - by destruct (Hexit status).
Qed.

(** X15. For a method of the registry the [try] statement does nothing
    out of sequence: what happens is the full sequence of load, explain,
    save and print for the sample texts, or a beginning of that sequence
    followed by the printed exception. *)
Theorem X15_method_block_follows_the_sequence
    (w : World) (method path_to_model : string)
    (Hknown : dict_get METHODS method = Some path_to_model) :
  ∃ t w',
    exec h (method_block method) w = (Returned tt, t, w') ∧
    (t = samples_actions script_dir method path_to_model 0 samples ∨
     ∃ done_before e,
       t = done_before ++ [APrint (str_of_exn e)] ∧
       done_before `prefix_of` samples_actions script_dir method path_to_model 0 samples).
Proof. by apply method_block_sequence. Qed.

(** *** The loop over the methods *)

Lemma exec_script_app methods methods' (w : World) :
  exec h (script (methods ++ methods')) w
  = match exec h (script methods) w with
    | (Returned _, t, w') => after t (exec h (script methods') w')
    | (Raised e, t, w') => (Raised e, t, w')
    | (Exited status, t, w') => (Exited status, t, w')
    end.
Proof.
  revert w. induction methods as [|method methods IH]; intros w.
  - simpl. by rewrite after_nil.
  - simpl. rewrite !exec_bind.
    destruct (exec h _ w) as [[[[]|e|status] t] w']; [|done..].
    rewrite IH.
    destruct (exec h (script methods) w') as [[[[]|e|status] t'] w'']; simpl; [|done..].
    by rewrite after_after.
Qed.

Lemma script_known_returns methods (w : World) :
  Forall known methods → ∃ t w', exec h (script methods) w = (Returned tt, t, w').
Proof.
  intros Hknown. revert w.
  induction Hknown as [|method methods [path Hpath] _ IH]; intros w.
  - by exists [], w.
  - rewrite (exec_script_known script_dir h _ _ _ _ Hpath).
    destruct (method_block_returns script_dir h _ _ w Hpath) as (t & w' & ->).
    destruct (IH w') as (t' & w'' & ->). by eexists _, _.
Qed.

Lemma script_unknown_exits prefix bad rest (w : World) :
  Forall known prefix → dict_get METHODS bad = None →
  ∃ t w',
    exec h (script prefix) w = (Returned tt, t, w') ∧
    exec h (script (prefix ++ bad :: rest)) w
    = (Exited 2, t ++ [AParserError usage], (h _ (ParserError usage) w').2).
Proof.
  intros Hknown Hbad.
  destruct (script_known_returns prefix w Hknown) as (t & w' & Hrun).
  exists t, w'. split; [done|].
  by rewrite exec_script_app, Hrun, (unknown_first_does_no_work script_dir h).
Qed.

(** X11. The loop over the methods never ends with an exception: it
    returns when every requested method is in the registry, and otherwise
    ends the process with status 2. *)
Theorem X11_script_returns_or_exits_with_2 (methods : list string) (w : World) :
  ∃ t w',
    (Forall known methods ∧ exec h (script methods) w = (Returned tt, t, w')) ∨
    (Exists (λ method, ¬ known method) methods ∧
     exec h (script methods) w = (Exited 2, t, w')).
Proof.
  induction methods as [|method methods IH] using rev_ind.
  - exists [], w. left. by split.
  - destruct IH as (t & w' & [[Hall Hrun]|[Hex Hrun]]).
    + destruct (dict_get METHODS method) as [path|] eqn:Hm.
      * destruct (script_known_returns (methods ++ [method]) w) as (t' & w'' & Hrun').
        { apply Forall_app. split; [done|]. constructor; [|done]. by exists path. }
        exists t', w''. left. split; [|done].
        apply Forall_app. split; [done|]. constructor; [|done]. by exists path.
      * destruct (script_unknown_exits methods method [] w Hall Hm)
          as (t' & w'' & _ & Hrun').
        eexists _, _. right. split; [|done].
        apply Exists_app. right. left. unfold known. rewrite Hm. by intros [? ?].
    + exists t, w'. right. split; [apply Exists_app; by left|].
      by rewrite exec_script_app, Hrun.
Qed.

(** X12. With an unknown method in the list, everything asked for before
    the first unknown method is run in full, then the valid methods are
    reported and the process ends with status 2; the methods after it are
    never looked at. *)
Theorem X12_script_stops_at_first_unknown_method
    (prefix rest : list string) (bad : string) (w : World)
    (Hprefix : Forall known prefix) (Hbad : dict_get METHODS bad = None) :
  ∃ t w',
    exec h (script prefix) w = (Returned tt, t, w') ∧
    exec h (script (prefix ++ bad :: rest)) w
    = (Exited 2, t ++ [AParserError usage], (h _ (ParserError usage) w').2).
Proof. by apply script_unknown_exits. Qed.

Lemma registry_cases method path_to_model :
  dict_get METHODS method = Some path_to_model →
  (method = "fasttext"%string ∧ path_to_model = "models/fasttext/sst.bin"%string) ∨
  (method = "flair"%string ∧ path_to_model = "models/flair/best-model-elmo.pt"%string).
Proof.
  change (dict_get METHODS method)
    with (if String.eqb "fasttext" method then Some "models/fasttext/sst.bin"%string
          else if String.eqb "flair" method
               then Some "models/flair/best-model-elmo.pt"%string
               else None).
  destruct (String.eqb_spec "fasttext" method) as [<-|_].
  { intros [= <-]. left. by split. }
  destruct (String.eqb_spec "flair" method) as [<-|_]; [|discriminate].
  intros [= <-]. right. by split.
Qed.

Lemma samples_actions_loads method path_to_model i texts :
  dict_get METHODS method = Some path_to_model →
  Forall (λ a, is_load a = true →
               a = ALoadFasttext "models/fasttext/sst.bin" ∨
               a = ALoadFlair "models/flair/best-model-elmo.pt")
         (samples_actions script_dir method path_to_model i texts).
Proof.
  intros Hknown. revert i. induction texts as [|text texts IH]; intros i; [constructor|].
  change (samples_actions script_dir method path_to_model i (text :: texts))
    with (sample_actions script_dir method path_to_model i text
          ++ samples_actions script_dir method path_to_model (S i) texts).
  apply Forall_app. split; [|apply IH].
  unfold sample_actions. constructor.
  - intros _. destruct (registry_cases _ _ Hknown) as [[-> ->]|[-> ->]]; auto.
  - repeat (constructor; [done|]). constructor.
Qed.

(** X16. Whatever methods are asked for and whatever happens, the only
    models ever loaded are the two of the registry, from the paths the
    registry gives. *)
Theorem X16_only_registry_models_are_loaded (methods : list string) (w : World) :
  Forall (λ a, is_load a = true →
               a = ALoadFasttext "models/fasttext/sst.bin" ∨
               a = ALoadFlair "models/flair/best-model-elmo.pt")
         (exec h (script methods) w).1.2.
Proof.
  revert w. induction methods as [|method methods IH]; intros w; [constructor|].
  destruct (dict_get METHODS method) as [path|] eqn:Hm.
  - rewrite (exec_script_known script_dir h _ _ _ _ Hm).
    destruct (method_block_sequence w method path Hm) as (t & w' & -> & Ht).
    specialize (IH w'). destruct (exec h (script methods) w') as [[o t'] w''].
    simpl in IH. unfold after. simpl. apply Forall_app. split; [|done].
    pose proof (samples_actions_loads method path 0 samples Hm) as Hloads.
    destruct Ht as [->|(pre & e & -> & [k Hk])]; [done|].
    rewrite Hk in Hloads. apply Forall_app in Hloads as [Hpre _].
    apply Forall_app. split; [done|]. by repeat constructor.
  - rewrite (unknown_first_does_no_work script_dir h _ _ _ Hm). simpl.
    by repeat constructor.
Qed.

End driver_more.

Lemma X8_main_rejects_other_methods_witness :
  exec no_models (main unit "bert" "models/bert" sample_text) tt
  = (Raised (Exn Exception "Requested method {} explainer function not implemented!"),
     [], tt).
Proof.
  apply (X8_main_rejects_other_methods no_models tt "bert" "models/bert" sample_text);
    discriminate.
Defined.

Lemma X12_script_stops_at_first_unknown_method_witness :
  ∃ t w',
    exec all_ok (script unit "." ["flair"]) tt = (Returned tt, t, w') ∧
    exec all_ok (script unit "." (["flair"] ++ "doesnotexist" :: ["fasttext"])) tt
    = (Exited 2, t ++ [AParserError usage], (all_ok _ (ParserError usage) w').2).
Proof.
  apply (X12_script_stops_at_first_unknown_method "." all_ok
           ["flair"] ["fasttext"] "doesnotexist" tt).
  - constructor; [|constructor]. by eexists.
  - reflexivity.
Defined.

Lemma X13_loop_reloads_model_for_each_text_witness :
  (exec all_ok (explain_samples unit "." "flair" "models/flair/best-model-elmo.pt"
                  0 samples) tt).1.2
  = samples_actions "." "flair" "models/flair/best-model-elmo.pt" 0 samples ∧
  length (List.filter is_load
            (exec all_ok (explain_samples unit "." "flair"
                            "models/flair/best-model-elmo.pt" 0 samples) tt).1.2)
  = length samples.
Proof.
  apply (X13_loop_reloads_model_for_each_text "." all_ok tt tt
           "flair" "models/flair/best-model-elmo.pt" 0 samples).
  reflexivity.
Defined.

Lemma X15_method_block_follows_the_sequence_witness :
  ∃ t w',
    exec no_models (method_block unit "." "flair") tt = (Returned tt, t, w') ∧
    (t = samples_actions "." "flair" "models/flair/best-model-elmo.pt" 0 samples ∨
     ∃ done_before e,
       t = done_before ++ [APrint (str_of_exn e)] ∧
       done_before `prefix_of`
         samples_actions "." "flair" "models/flair/best-model-elmo.pt" 0 samples).
Proof.
  apply (X15_method_block_follows_the_sequence "." no_models tt
           "flair" "models/flair/best-model-elmo.pt").
  reflexivity.
Defined.

(** * Failures inside the loop over the texts *)

(** C6, as stated, fails for a load that fails later than at the first
    text: [main] loads the model anew for every text, so when the second
    load raises, the first text has already been explained and saved; the
    method is cut short, not skipped. *)
Lemma C6_later_load_failure_does_not_skip_method :
  (read_once _ (LoadFasttext "models/fasttext/sst.bin") 1).1 = Err missing_model ∧
  exec read_once (method_block unit "." "fasttext") 0
  = (Returned tt,
     [ALoadFasttext "models/fasttext/sst.bin";
      AExplain "It 's not horrible , just horribly mediocre .";
      ASave "./0-explanation-fasttext.html";
      APrint "Output explainer data 1 to HTML";
      ALoadFasttext "models/fasttext/sst.bin";
      APrint "model file cannot be opened"]%string,
     2).
Proof. split; reflexivity. Qed.

Section driver_failures.
Context {Explanation World : Type} (script_dir : string).
Context (h : oracle Explanation World).

Local Abbreviation method_block := (method_block Explanation script_dir).
Local Abbreviation script := (script Explanation script_dir).
Local Abbreviation explain_samples := (explain_samples Explanation script_dir).

Lemma method_block_aborts method path_to_model before text later e t1 w1 t2 w2
    (w : World) :
  dict_get METHODS method = Some path_to_model →
  samples = before ++ text :: later →
  exec h (explain_samples method path_to_model 0 before) w = (Returned tt, t1, w1) →
  exec h (explain_sample Explanation script_dir method path_to_model
            (length before) text) w1 = (Raised e, t2, w2) →
  exec h (method_block method) w
  = (Returned tt, t1 ++ t2 ++ [APrint (exn_msg e)], (h _ (Print (exn_msg e)) w2).2) ∧
  t1 = samples_actions script_dir method path_to_model 0 before.
Proof.
  intros Hknown Hsplit Hbefore Htext. split.
  - rewrite (exec_method_block_known script_dir h _ _ _ Hknown), Hsplit.
    rewrite (exec_explain_samples_app script_dir h), Hbefore. simpl explain_samples.
    rewrite exec_bind, Htext. unfold after. simpl. by rewrite <-app_assoc.
  - destruct (exec_explain_samples_trace script_dir h method path_to_model before 0 w)
      as (o & t & w' & Hexec & _ & Heq & _).
    rewrite Hbefore in Hexec. injection Hexec as <- <- <-. by apply (Heq tt).
Qed.

Lemma fasttext_load_fails path_to_model i text e (w w1 : World) :
  h _ (LoadFasttext path_to_model) w = (Err e, w1) →
  exec h (explain_sample Explanation script_dir "fasttext" path_to_model i text) w
  = (Raised e, [ALoadFasttext path_to_model], w1).
Proof. intros Hload. unfold explain_sample, main. simpl. by rewrite Hload. Qed.

Lemma flair_load_fails path_to_model i text e (w w1 : World) :
  h _ (LoadFlair path_to_model) w = (Err e, w1) →
  exec h (explain_sample Explanation script_dir "flair" path_to_model i text) w
  = (Raised e, [ALoadFlair path_to_model], w1).
Proof. intros Hload. unfold explain_sample, main. simpl. by rewrite Hload. Qed.

Lemma fasttext_explain_fails path_to_model i text classifier e (w w1 w2 : World) :
  h _ (LoadFasttext path_to_model) w = (Ok classifier, w1) →
  h _ (ExplainInstance {| bow := false; class_names := [1; 2; 3; 4; 5]%Z |}
         text (fasttext_predictor classifier) 1 10) w1 = (Err e, w2) →
  exec h (explain_sample Explanation script_dir "fasttext" path_to_model i text) w
  = (Raised e, [ALoadFasttext path_to_model; AExplain text], w2).
Proof.
  intros Hload Hexplain. unfold explain_sample, main. simpl.
  rewrite Hload. simpl.
  change (λ x, fasttext_predictor classifier x) with (fasttext_predictor classifier).
  by rewrite Hexplain.
Qed.

Lemma flair_explain_fails path_to_model i text classifier e (w w1 w2 : World) :
  h _ (LoadFlair path_to_model) w = (Ok classifier, w1) →
  h _ (ExplainInstance {| bow := false; class_names := [1; 2; 3; 4; 5]%Z |}
         text (flair_predictor classifier) 1 10) w1 = (Err e, w2) →
  exec h (explain_sample Explanation script_dir "flair" path_to_model i text) w
  = (Raised e, [ALoadFlair path_to_model; AExplain text], w2).
Proof.
  intros Hload Hexplain. unfold explain_sample, main. simpl.
  rewrite Hload. simpl.
  change (λ x, flair_predictor classifier x) with (flair_predictor classifier).
  by rewrite Hexplain.
Qed.

(** C6, amended.  For a method of the registry:
    - its [try] statement always falls through, and the rest of the method
      list then runs from the world it leaves, whatever failed inside;
    - when the turn for one text raises, the texts before it have been
      processed in full, the message of the exception is printed, and no
      later text is touched;
    - the model is loaded anew in every turn: when a load raises, the turn
      shows nothing but that load, so the method is skipped entirely
      exactly when this happens at the first text;
    - when the load succeeds and the explanation raises, the turn shows
      the load and the explain call and nothing is saved. *)
Theorem C6_failures_abort_texts_not_methods
    (w : World) (method path_to_model : string) (rest : list string)
    (Hknown : dict_get METHODS method = Some path_to_model) :
  (∃ t w', exec h (method_block method) w = (Returned tt, t, w') ∧
           exec h (script (method :: rest)) w = after t (exec h (script rest) w')) ∧
  (∀ before text later e t1 w1 t2 w2,
     samples = before ++ text :: later →
     exec h (explain_samples method path_to_model 0 before) w = (Returned tt, t1, w1) →
     exec h (explain_sample Explanation script_dir method path_to_model
               (length before) text) w1 = (Raised e, t2, w2) →
     exec h (method_block method) w
     = (Returned tt, t1 ++ t2 ++ [APrint (exn_msg e)],
        (h _ (Print (exn_msg e)) w2).2) ∧
     t1 = samples_actions script_dir method path_to_model 0 before) ∧
  (∀ before text later e t1 w1 w2,
     samples = before ++ text :: later →
     exec h (explain_samples method path_to_model 0 before) w = (Returned tt, t1, w1) →
     (method = "fasttext"%string ∧ h _ (LoadFasttext path_to_model) w1 = (Err e, w2)) ∨
     (method = "flair"%string ∧ h _ (LoadFlair path_to_model) w1 = (Err e, w2)) →
     exec h (method_block method) w
     = (Returned tt,
        samples_actions script_dir method path_to_model 0 before
        ++ [load_action method path_to_model; APrint (exn_msg e)],
        (h _ (Print (exn_msg e)) w2).2)) ∧
  (∀ before text later e t1 w1 w2 w3,
     samples = before ++ text :: later →
     exec h (explain_samples method path_to_model 0 before) w = (Returned tt, t1, w1) →
     (method = "fasttext"%string ∧
      ∃ classifier,
        h _ (LoadFasttext path_to_model) w1 = (Ok classifier, w2) ∧
        h _ (ExplainInstance {| bow := false; class_names := [1; 2; 3; 4; 5]%Z |}
               text (fasttext_predictor classifier) 1 10) w2 = (Err e, w3)) ∨
     (method = "flair"%string ∧
      ∃ classifier,
        h _ (LoadFlair path_to_model) w1 = (Ok classifier, w2) ∧
        h _ (ExplainInstance {| bow := false; class_names := [1; 2; 3; 4; 5]%Z |}
               text (flair_predictor classifier) 1 10) w2 = (Err e, w3)) →
     exec h (method_block method) w
     = (Returned tt,
        samples_actions script_dir method path_to_model 0 before
        ++ [load_action method path_to_model; AExplain text; APrint (exn_msg e)],
        (h _ (Print (exn_msg e)) w3).2)).
Proof.
  split_and!.
  - destruct (method_block_returns script_dir h method path_to_model w Hknown)
      as (t & w' & Hblock).
    exists t, w'. split; [done|].
    by rewrite (exec_script_known script_dir h _ _ _ _ Hknown), Hblock.
  - intros before text later e t1 w1 t2 w2 Hsplit Hbefore Htext.
    by apply (method_block_aborts method path_to_model before text later e t1 w1 t2 w2 w).
  - intros before text later e t1 w1 w2 Hsplit Hbefore [[-> Hload]|[-> Hload]].
    + destruct (method_block_aborts "fasttext" path_to_model before text later e
                  t1 w1 [ALoadFasttext path_to_model] w2 w Hknown Hsplit Hbefore)
        as [-> <-]; [by apply fasttext_load_fails | done].
    + destruct (method_block_aborts "flair" path_to_model before text later e
                  t1 w1 [ALoadFlair path_to_model] w2 w Hknown Hsplit Hbefore)
        as [-> <-]; [by apply flair_load_fails | done].
  - intros before text later e t1 w1 w2 w3 Hsplit Hbefore
      [[-> (c & Hload & Hexplain)]|[-> (c & Hload & Hexplain)]].
    + destruct (method_block_aborts "fasttext" path_to_model before text later e
                  t1 w1 [ALoadFasttext path_to_model; AExplain text] w3 w
                  Hknown Hsplit Hbefore)
        as [-> <-]; [by eapply fasttext_explain_fails | done].
    + destruct (method_block_aborts "flair" path_to_model before text later e
                  t1 w1 [ALoadFlair path_to_model; AExplain text] w3 w
                  Hknown Hsplit Hbefore)
        as [-> <-]; [by eapply flair_explain_fails | done].
Qed.

End driver_failures.

Lemma C6_failures_abort_texts_not_methods_witness :
  exec read_once (method_block unit "." "fasttext") 0
  = (Returned tt,
     samples_actions "." "fasttext" "models/fasttext/sst.bin" 0
       ["It 's not horrible , just horribly mediocre ."%string]
     ++ [load_action "fasttext" "models/fasttext/sst.bin";
         APrint (exn_msg missing_model)],
     (read_once _ (Print (exn_msg missing_model)) 2).2).
Proof.
  destruct (C6_failures_abort_texts_not_methods "." read_once 0
              "fasttext" "models/fasttext/sst.bin" [] eq_refl)
    as (_ & _ & Hload & _).
  apply (Hload ["It 's not horrible , just horribly mediocre ."%string]
           "Light , cute and forgettable ."%string [] missing_model
           (samples_actions "." "fasttext" "models/fasttext/sst.bin" 0
              ["It 's not horrible , just horribly mediocre ."%string]) 1 2).
  - reflexivity.
  - reflexivity.
  - left. split; reflexivity.
Defined.
